(** * OpenSky ingestion: normalizer, sinks, fetcher and schedulers

    A shallow embedding of [02_extract.py] (both ingestion scripts it holds:
    the six hour insert-or-ignore job and the twenty-four hour upsert job) and
    of the table declared in [01_DB_created.py], followed by the properties
    of the ingestion pipeline. *)

From Stdlib Require Import ZArith QArith Lqa Bool List String Ascii Lia.
From Stdlib Require Import DecimalString.
Import ListNotations.

Open Scope string_scope.
Open Scope list_scope.
Open Scope Z_scope.

(** * Python values *)

Module Py.

(** A float is a NaN, an infinity or a finite double.  A finite double is a
    rational number; the code only compares floats with integer constants,
    which Python does exactly, so finite floats are kept as rationals. *)
Inductive pyfloat : Type :=
| FNan
| FInf (negative : bool)
| FFin (q : Q).

(** What [response.json()] can hold. *)
#[warnings="-register-all"]
Inductive pyval : Type :=
| PNone
| PBool (b : bool)
| PInt (z : Z)
| PFloat (f : pyfloat)
| PStr (s : string)
| PList (l : list pyval)
| PDict (d : list (string * pyval)).

(** The exceptions the scripts can meet. [DbError] stands for the subclasses
    of [sqlite3.Error]. *)
Inductive pyexn : Type :=
| TypeError
| AttributeError
| IndexError
| KeyError
| OverflowError
| DbError.

(** A computation that returns or raises. *)
Definition py (A : Type) : Type := (pyexn + A)%type.

Definition ret {A} (a : A) : py A := inr a.
Definition raise {A} (e : pyexn) : py A := inl e.
Definition bind {A B} (m : py A) (k : A -> py B) : py B :=
  match m with
  | inl e => inl e
  | inr a => k a
  end.

Notation "x <- m ;; k" := (bind m (fun x => k))
  (at level 61, m at next level, right associativity).

(** [bool(v)] *)
Definition truthy (v : pyval) : bool :=
  match v with
  | PNone => false
  | PBool b => b
  | PInt z => negb (z =? 0)
  | PFloat (FFin q) => negb (Qeq_bool q 0)
  | PFloat _ => true
  | PStr s => match s with EmptyString => false | _ => true end
  | PList l => match l with [] => false | _ => true end
  | PDict d => match d with [] => false | _ => true end
  end.

Definition is_none (v : pyval) : bool :=
  match v with PNone => true | _ => false end.

(** [isinstance(v, int)]: [bool] is a subclass of [int]. *)
Definition isinstance_int (v : pyval) : bool :=
  match v with PBool _ | PInt _ => true | _ => false end.

(** [len(v)] *)
Definition py_len (v : pyval) : py nat :=
  match v with
  | PStr s => ret (String.length s)
  | PList l => ret (List.length l)
  | PDict d => ret (List.length d)
  | _ => raise TypeError
  end.

(** [v[i]] for a literal index [i >= 0].  The keys of a decoded JSON object
    are strings, so an integer subscript of a dict is always a [KeyError]. *)
Definition getitem (v : pyval) (i : nat) : py pyval :=
  match v with
  | PList l =>
      match nth_error l i with Some x => ret x | None => raise IndexError end
  | PStr s =>
      match String.get i s with
      | Some c => ret (PStr (String c EmptyString))
      | None => raise IndexError
      end
  | PDict _ => raise KeyError
  | _ => raise TypeError
  end.

(** Exact comparisons of a float with an integer. *)
Definition int_le_float (lo : Z) (f : pyfloat) : bool :=
  match f with
  | FNan => false
  | FInf negative => negb negative
  | FFin q => Qle_bool (inject_Z lo) q
  end.

Definition float_le_int (f : pyfloat) (hi : Z) : bool :=
  match f with
  | FNan => false
  | FInf negative => negative
  | FFin q => Qle_bool q (inject_Z hi)
  end.

Definition float_eq_int (f : pyfloat) (z : Z) : bool :=
  match f with
  | FFin q => Qeq_bool q (inject_Z z)
  | _ => false
  end.

(** [lo <= v] for an integer literal [lo]: exact on numbers, [TypeError]
    on anything else. *)
Definition int_le (lo : Z) (v : pyval) : py bool :=
  match v with
  | PBool b => ret (lo <=? Z.b2z b)
  | PInt z => ret (lo <=? z)
  | PFloat f => ret (int_le_float lo f)
  | _ => raise TypeError
  end.

(** [v <= hi] for an integer literal [hi]. *)
Definition le_int (v : pyval) (hi : Z) : py bool :=
  match v with
  | PBool b => ret (Z.b2z b <=? hi)
  | PInt z => ret (z <=? hi)
  | PFloat f => ret (float_le_int f hi)
  | _ => raise TypeError
  end.

(** The chained comparison [lo <= v <= hi]: the second comparison is only
    evaluated when the first one is true. *)
Definition chain_le (lo : Z) (v : pyval) (hi : Z) : py bool :=
  b <- int_le lo v ;;
  if b then le_int v hi else ret false.

(** [v == z] for an integer literal [z]; never raises. *)
Definition eq_int (v : pyval) (z : Z) : bool :=
  match v with
  | PBool b => Z.b2z b =? z
  | PInt x => x =? z
  | PFloat f => float_eq_int f z
  | _ => false
  end.

(** [v == b] for [b] one of [True] and [False], which are the integers 1
    and 0. *)
Definition eq_bool (v : pyval) (b : bool) : bool := eq_int v (Z.b2z b).

(** [v in (0, 1)] *)
Definition in_0_1 (v : pyval) : bool := eq_int v 0 || eq_int v 1.

(** ** Strings

    A [str] is a string of 8-bit characters, read as the code points 0 to
    255.  [isspace] is Python's table on that range. *)
Definition isspace (c : ascii) : bool :=
  let n := nat_of_ascii c in
  ((9 <=? n) && (n <=? 13) || (28 <=? n) && (n <=? 32)
   || (n =? 133) || (n =? 160))%nat.

Fixpoint lstrip (s : string) : string :=
  match s with
  | EmptyString => EmptyString
  | String c s' => if isspace c then lstrip s' else s
  end.

Fixpoint rstrip (s : string) : string :=
  match s with
  | EmptyString => EmptyString
  | String c s' =>
      match rstrip s' with
      | EmptyString => if isspace c then EmptyString else String c EmptyString
      | t => String c t
      end
  end.

Definition strip (s : string) : string := rstrip (lstrip s).

(** [upper] on the letters a to z; characters above 127 are left as they are
    (some of Python's mappings there leave the 8-bit range). *)
Definition upper_char (c : ascii) : ascii :=
  let n := nat_of_ascii c in
  if ((97 <=? n) && (n <=? 122))%nat then ascii_of_nat (n - 32) else c.

Fixpoint upper (s : string) : string :=
  match s with
  | EmptyString => EmptyString
  | String c s' => String (upper_char c) (upper s')
  end.

(** Method calls: only a [str] has [strip] and [upper]. *)
Definition call_strip (v : pyval) : py pyval :=
  match v with PStr s => ret (PStr (strip s)) | _ => raise AttributeError end.

Definition call_upper (v : pyval) : py pyval :=
  match v with PStr s => ret (PStr (upper s)) | _ => raise AttributeError end.

End Py.
Import Py.

(** * The canonical record

    The 18-tuple built at lines 89-94 and 252-257, and, with SQL values in
    the cells, a row of [opensky_data]. *)

Record tuple18 (A : Type) : Type := mkTuple {
  icao24 : A;
  callsign : A;
  origin_country : A;
  time_position : A;
  last_contact : A;
  longitude : A;
  latitude : A;
  baro_altitude : A;
  on_ground : A;
  velocity : A;
  true_track : A;
  vertical_rate : A;
  sensors : A;
  geo_altitude : A;
  squawk : A;
  spi : A;
  position_source : A;
  fetch_time : A
}.

Arguments mkTuple {A}.
Arguments icao24 {A}.
Arguments callsign {A}.
Arguments origin_country {A}.
Arguments time_position {A}.
Arguments last_contact {A}.
Arguments longitude {A}.
Arguments latitude {A}.
Arguments baro_altitude {A}.
Arguments on_ground {A}.
Arguments velocity {A}.
Arguments true_track {A}.
Arguments vertical_rate {A}.
Arguments sensors {A}.
Arguments geo_altitude {A}.
Arguments squawk {A}.
Arguments spi {A}.
Arguments position_source {A}.
Arguments fetch_time {A}.

Definition record : Type := tuple18 pyval.

(** * The normalizer: the body of [for state in states] *)

Module Normalizer.

(** How the [try] block ends when it does not raise. *)
Inductive verdict : Type :=
| Keep (r : record)        (* records_to_insert.append(record) *)
| Continue.                (* skipped += 1; continue *)

(** [v is not None and not (lo <= v <= hi)] *)
Definition out_of_range (lo : Z) (v : pyval) (hi : Z) : py bool :=
  if is_none v then ret false
  else b <- chain_le lo v hi ;; ret (negb b).

(** [squawk.strip()], then [None] unless four characters are left. *)
Definition clean_squawk (v : pyval) : py pyval :=
  if is_none v then ret PNone
  else
    t <- call_strip v ;;
    n <- py_len t ;;
    if (n =? 4)%nat then ret t else ret PNone.

(** The [try] block, lines 44-95 (and 209-258). *)
Definition try_block (state : pyval) (now : string) : py verdict :=
  v_icao24 <- getitem state 0 ;;
  s1 <- getitem state 1 ;;
  v_callsign <- (if truthy s1
                 then t <- call_strip s1 ;; call_upper t
                 else ret PNone) ;;
  v_origin_country <- getitem state 2 ;;
  v_time_position <- getitem state 3 ;;
  v_last_contact <- getitem state 4 ;;
  v_longitude <- getitem state 5 ;;
  v_latitude <- getitem state 6 ;;
  v_baro_altitude <- getitem state 7 ;;
  v_on_ground <- getitem state 8 ;;
  v_velocity <- getitem state 9 ;;
  v_true_track <- getitem state 10 ;;
  v_vertical_rate <- getitem state 11 ;;
  v_sensors <- getitem state 12 ;;
  v_geo_altitude <- getitem state 13 ;;
  v_squawk <- getitem state 14 ;;
  v_spi <- getitem state 15 ;;
  v_position_source <- getitem state 16 ;;
  if negb (truthy v_icao24) || negb (isinstance_int v_last_contact)
  then ret Continue
  else
    bad_lon <- out_of_range (-180) v_longitude 180 ;;
    if bad_lon then ret Continue
    else
      bad_lat <- out_of_range (-90) v_latitude 90 ;;
      if bad_lat then ret Continue
      else
        bad_track <- out_of_range 0 v_true_track 360 ;;
        if bad_track then ret Continue
        else
          if negb (in_0_1 v_on_ground) || negb (in_0_1 v_spi)
          then ret Continue
          else
            v_squawk' <- clean_squawk v_squawk ;;
            ret (Keep (mkTuple
                         v_icao24 v_callsign v_origin_country v_time_position
                         v_last_contact v_longitude v_latitude v_baro_altitude
                         v_on_ground v_velocity v_true_track v_vertical_rate
                         v_sensors v_geo_altitude v_squawk' v_spi
                         v_position_source (PStr now))).

(** What one pass of the loop body does with a state. *)
Inductive outcome : Type :=
| Accepted (r : record)    (* appended to records_to_insert *)
| Rejected                 (* skipped += 1 *)
| Dropped.                 (* len(state) < 17: neither appended nor counted *)

(** Lines 42-99 (and 207-263).  [len(state)] is evaluated outside the [try]
    block, so its [TypeError] is not caught here; whatever the [try] block
    raises is caught by [except Exception]. *)
Definition normalize (state : pyval) (now : string) : py outcome :=
  n <- py_len state ;;
  if (17 <=? n)%nat then
    match try_block state now with
    | inr (Keep r) => ret (Accepted r)
    | inr Continue => ret Rejected
    | inl _ => ret Rejected
    end
  else ret Dropped.

(** The two accumulators of the loop. *)
Record acc : Type := mkAcc {
  records_to_insert : list record;
  skipped : nat
}.

Definition step (now : string) (a : acc) (state : pyval) : py acc :=
  o <- normalize state now ;;
  ret (match o with
       | Accepted r => mkAcc (records_to_insert a ++ [r]) (skipped a)
       | Rejected => mkAcc (records_to_insert a) (S (skipped a))
       | Dropped => a
       end).

Fixpoint loop (now : string) (a : acc) (states : list pyval) : py acc :=
  match states with
  | [] => ret a
  | state :: rest => a' <- step now a state ;; loop now a' rest
  end.

(** [for x in v]: the items of a list, the characters of a string, the keys
    of a dict. *)
Definition py_iter (v : pyval) : py (list pyval) :=
  match v with
  | PList l => ret l
  | PStr s =>
      ret (map (fun c => PStr (String c EmptyString)) (list_ascii_of_string s))
  | PDict d => ret (map (fun kv => PStr (fst kv)) d)
  | _ => raise TypeError
  end.

Definition normalize_all (now : string) (states : pyval) : py acc :=
  l <- py_iter states ;;
  loop now (mkAcc [] 0) l.

End Normalizer.
Import Normalizer.

(** * The store: the table [opensky_data] and a connection to it *)

Module Store.

(** The values of the storage classes NULL, INTEGER, REAL and TEXT. *)
Inductive sqlval : Type :=
| SNull
| SInt (z : Z)
| SReal (f : pyfloat)
| SText (s : string).

(** A REAL value; the engine keeps a NaN as NULL. *)
Definition real (f : pyfloat) : sqlval :=
  match f with
  | FNan => SNull
  | _ => SReal f
  end.

Definition row : Type := tuple18 sqlval.
Definition table : Type := list row.

Definition tuple_map2 {A B C} (f : A -> B -> C)
    (x : tuple18 A) (y : tuple18 B) : tuple18 C :=
  mkTuple
    (f (icao24 x) (icao24 y)) (f (callsign x) (callsign y))
    (f (origin_country x) (origin_country y))
    (f (time_position x) (time_position y))
    (f (last_contact x) (last_contact y))
    (f (longitude x) (longitude y)) (f (latitude x) (latitude y))
    (f (baro_altitude x) (baro_altitude y))
    (f (on_ground x) (on_ground y)) (f (velocity x) (velocity y))
    (f (true_track x) (true_track y))
    (f (vertical_rate x) (vertical_rate y))
    (f (sensors x) (sensors y)) (f (geo_altitude x) (geo_altitude y))
    (f (squawk x) (squawk y)) (f (spi x) (spi y))
    (f (position_source x) (position_source y))
    (f (fetch_time x) (fetch_time y)).

(** ** Binding the parameters of a statement *)

Definition int64 (z : Z) : bool := (- 2 ^ 63 <=? z) && (z <? 2 ^ 63).

(** How the [sqlite3] module binds one Python value to a [?]: an [int] that
    does not fit 64 bits is an [OverflowError], a list or a dict is refused
    with a [sqlite3.Error]. *)
Definition bind_param (v : pyval) : py sqlval :=
  match v with
  | PNone => ret SNull
  | PBool b => ret (SInt (Z.b2z b))
  | PInt z => if int64 z then ret (SInt z) else raise OverflowError
  | PFloat f => ret (real f)
  | PStr s => ret (SText s)
  | PList _ | PDict _ => raise DbError
  end.

(** The eighteen [?] are bound in order. *)
Definition bind_parameters (r : record) : py row :=
  c0 <- bind_param (icao24 r) ;;
  c1 <- bind_param (callsign r) ;;
  c2 <- bind_param (origin_country r) ;;
  c3 <- bind_param (time_position r) ;;
  c4 <- bind_param (last_contact r) ;;
  c5 <- bind_param (longitude r) ;;
  c6 <- bind_param (latitude r) ;;
  c7 <- bind_param (baro_altitude r) ;;
  c8 <- bind_param (on_ground r) ;;
  c9 <- bind_param (velocity r) ;;
  c10 <- bind_param (true_track r) ;;
  c11 <- bind_param (vertical_rate r) ;;
  c12 <- bind_param (sensors r) ;;
  c13 <- bind_param (geo_altitude r) ;;
  c14 <- bind_param (squawk r) ;;
  c15 <- bind_param (spi r) ;;
  c16 <- bind_param (position_source r) ;;
  c17 <- bind_param (fetch_time r) ;;
  ret (mkTuple c0 c1 c2 c3 c4 c5 c6 c7 c8 c9 c10 c11 c12 c13 c14 c15 c16 c17).

(** ** Column affinity *)

Inductive affinity : Type := TEXT | INTEGER | REAL | NUMERIC.

(** The declared types of [CREATE TABLE opensky_data]; [BOOLEAN] gives
    NUMERIC affinity. *)
Definition column_affinity : tuple18 affinity :=
  mkTuple TEXT TEXT TEXT INTEGER INTEGER REAL REAL REAL NUMERIC REAL REAL
          REAL TEXT REAL TEXT NUMERIC INTEGER TEXT.

(** A numeric literal read from a text. *)
Inductive number : Type :=
| NumInt (z : Z)
| NumReal (f : pyfloat).

(** The conversions of the storage engine that depend on the binary form of
    a double; the properties below hold for any such functions. *)
Record conversions : Type := mkConversions {
  text_of_real : pyfloat -> string;           (* a REAL put in a TEXT column *)
  numeric_of_text : string -> option number;  (* a text that is a numeric literal *)
  real_of_int : Z -> pyfloat                  (* the double nearest to an integer *)
}.

Definition text_of_int (z : Z) : string := NilZero.string_of_int (Z.to_int z).

(** A real that is an integer of less than 64 bits is stored as that
    integer. *)
Definition integer_if_exact (f : pyfloat) : sqlval :=
  match f with
  | FFin q =>
      let q' := Qred q in
      if (Zpos (Qden q') =? 1) && (- 2 ^ 63 <? Qnum q') && (Qnum q' <? 2 ^ 63)
      then SInt (Qnum q')
      else SReal f
  | _ => real f
  end.

Section Affinity.

Variable cv : conversions.

Definition apply_affinity (a : affinity) (v : sqlval) : sqlval :=
  match a, v with
  | TEXT, SInt z => SText (text_of_int z)
  | TEXT, SReal f => SText (text_of_real cv f)
  | (INTEGER | NUMERIC), SReal f => integer_if_exact f
  | (INTEGER | NUMERIC), SText s =>
      match numeric_of_text cv s with
      | Some (NumInt z) => SInt z
      | Some (NumReal f) => integer_if_exact f
      | None => v
      end
  | REAL, SInt z => real (real_of_int cv z)
  | REAL, SText s =>
      match numeric_of_text cv s with
      | Some (NumInt z) => real (real_of_int cv z)
      | Some (NumReal f) => real f
      | None => v
      end
  | _, _ => v
  end.

(** The row a record becomes in the table. *)
Definition stored (r : record) : py row :=
  cells <- bind_parameters r ;;
  ret (tuple_map2 apply_affinity column_affinity cells).

End Affinity.

(** ** Constraints of the table *)

Definition not_null (v : sqlval) : bool :=
  match v with SNull => false | _ => true end.

(** [CHECK(v BETWEEN lo AND hi)]: a NULL passes; a text sorts after every
    number. *)
Definition check_between (v : sqlval) (lo hi : Z) : bool :=
  match v with
  | SNull => true
  | SInt z => (lo <=? z) && (z <=? hi)
  | SReal f => int_le_float lo f && float_le_int f hi
  | SText _ => false
  end.

(** [CHECK(v IN (z1, ..., zn))]: a NULL passes. *)
Definition check_in (v : sqlval) (zs : list Z) : bool :=
  match v with
  | SNull => true
  | SInt z => existsb (Z.eqb z) zs
  | SReal f => existsb (float_eq_int f) zs
  | SText _ => false
  end.

(** The NOT NULL and CHECK constraints of [01_DB_created.py], lines 19-36. *)
Definition constraints_ok (r : row) : bool :=
  not_null (icao24 r)
  && not_null (origin_country r)
  && not_null (last_contact r)
  && check_between (longitude r) (-180) 180
  && check_between (latitude r) (-90) 90
  && not_null (on_ground r) && check_in (on_ground r) [0; 1]
  && check_between (true_track r) 0 360
  && not_null (spi r) && check_in (spi r) [0; 1]
  && check_in (position_source r) [0; 1; 2]
  && not_null (fetch_time r).

(** ** The primary key [(icao24, last_contact)] *)

(** Equality of two key cells: numbers by value, texts by characters; a
    NULL equals nothing. *)
Definition float_eqb (f g : pyfloat) : bool :=
  match f, g with
  | FInf a, FInf b => Bool.eqb a b
  | FFin p, FFin q => Qeq_bool p q
  | _, _ => false
  end.

Definition sql_eqb (a b : sqlval) : bool :=
  match a, b with
  | SInt x, SInt y => x =? y
  | SInt x, SReal f => float_eqb (FFin (inject_Z x)) f
  | SReal f, SInt y => float_eqb f (FFin (inject_Z y))
  | SReal f, SReal g => float_eqb f g
  | SText s, SText t => String.eqb s t
  | _, _ => false
  end.

Definition same_key (a b : row) : bool :=
  sql_eqb (icao24 a) (icao24 b) && sql_eqb (last_contact a) (last_contact b).

(** The stored row that conflicts with [r], if any. *)
Definition lookup (t : table) (r : row) : option row :=
  find (same_key r) t.

(** ** The two statements *)

(** [INSERT OR IGNORE]: a row that breaks a constraint, the primary key
    included, is skipped. *)
Definition insert_or_ignore (t : table) (r : row) : table :=
  if constraints_ok r && negb (existsb (same_key r) t)
  then t ++ [r]
  else t.

(** The [DO UPDATE SET] list, lines 274-289: every column but the two of
    the key takes the value of [excluded]. *)
Definition do_update (old excluded : row) : row :=
  mkTuple
    (icao24 old)
    (callsign excluded)
    (origin_country excluded)
    (time_position excluded)
    (last_contact old)
    (longitude excluded)
    (latitude excluded)
    (baro_altitude excluded)
    (on_ground excluded)
    (velocity excluded)
    (true_track excluded)
    (vertical_rate excluded)
    (sensors excluded)
    (geo_altitude excluded)
    (squawk excluded)
    (spi excluded)
    (position_source excluded)
    (fetch_time excluded).

(** [INSERT ... ON CONFLICT(icao24, last_contact) DO UPDATE] of a row that
    passed the constraints. *)
Fixpoint insert_or_update (t : table) (r : row) : table :=
  match t with
  | [] => [r]
  | old :: t' =>
      if same_key r old then do_update old r :: t'
      else old :: insert_or_update t' r
  end.

Inductive policy : Type := InsertOrIgnore | Upsert.

(** One execution of the statement.  Without [OR IGNORE] a broken
    constraint aborts the statement with an [IntegrityError]. *)
Definition run_statement (p : policy) (t : table) (r : row) : py table :=
  match p with
  | InsertOrIgnore => ret (insert_or_ignore t r)
  | Upsert =>
      if constraints_ok r then ret (insert_or_update t r) else raise DbError
  end.

(** ** Connection and transaction *)

(** What the engine itself may refuse, whatever the data: the [k]-th
    statement of an [executemany], or the commit. *)
Record faults : Type := mkFaults {
  stmt_fails : nat -> bool;
  commit_fails : bool
}.

Definition no_faults : faults := mkFaults (fun _ => false) false.

(** A connection sees its own uncommitted changes in [pending]; the
    database file holds [durable]. *)
Record connection : Type := mkConn {
  durable : table;
  pending : table
}.

Definition connect (db : table) : connection := mkConn db db.

(** [conn.commit()] *)
Definition commit (flt : faults) (c : connection) : connection * py unit :=
  if commit_fails flt then (c, raise DbError)
  else (mkConn (pending c) (pending c), ret tt).

(** [conn.close()]: what was not committed is lost. *)
Definition close (c : connection) : table := durable c.

Section Execute.

Variable cv : conversions.
Variable p : policy.
Variable flt : faults.

Definition execute (k : nat) (t : table) (params : record) : py table :=
  r <- stored cv params ;;
  if stmt_fails flt k then raise DbError else run_statement p t r.

(** [cursor.executemany(query, records)]: the statement runs once per
    record inside one transaction, and stops at the first exception, the
    changes made so far still pending. *)
Fixpoint executemany_from (k : nat) (t : table) (records : list record)
    : table * py unit :=
  match records with
  | [] => (t, ret tt)
  | params :: rest =>
      match execute k t params with
      | inl e => (t, raise e)
      | inr t' => executemany_from (S k) t' rest
      end
  end.

Definition executemany (c : connection) (records : list record)
    : connection * py unit :=
  let (t, r) := executemany_from 0 (pending c) records in
  (mkConn (durable c) t, r).

End Execute.

End Store.
Import Store.

(** * The two ingestion cycles *)

Module Cycle.

(** What a request to the snapshot endpoint gives: the decoded body, or one
    of the [requests.exceptions.RequestException] (no connection, time-out,
    a status that [raise_for_status] refuses). *)
Inductive response : Type :=
| HttpOk (body : pyval)
| RequestException.

(** What a cycle logs when it returns. *)
Inductive report : Type :=
| Written (n : nat) (skipped : nat)  (* "... n records. Skipped ... invalid records." *)
| NoValidRecords                     (* "No valid records to insert." *)
| NoFlightData                       (* "No flight data received." *)
| FetchSkipped                       (* [if not data: return] *)
| ApiError                           (* "API error: ..." *)
| DatabaseError.                     (* "Database error: ..." *)

(** [data.get("states", [])]: only a dict has [get]. *)
Definition get_states (data : pyval) : py pyval :=
  match data with
  | PDict d =>
      ret (match find (fun kv => String.eqb (fst kv) "states") d with
           | Some kv => snd kv
           | None => PList []
           end)
  | _ => raise AttributeError
  end.

(** [except sqlite3.Error as e: logging.error(...)]; any other exception
    leaves the function. *)
Definition except_sqlite_error (r : py report) : py report :=
  match r with
  | inl DbError => ret DatabaseError
  | _ => r
  end.

Definition FETCH_INTERVAL_SECONDS : Z := 600.
Definition MAX_RETRIES : nat := 5.
Definition RETRY_BACKOFF_FACTOR : Z := 2.

Section Cycles.

Variable cv : conversions.

(** Lines 101-115 and 265-295: [executemany], then [commit], then the log
    line; nothing is executed for an empty list. *)
Definition store_batch (p : policy) (flt : faults) (c : connection) (a : acc)
    : connection * py report :=
  match records_to_insert a with
  | [] => (c, ret NoValidRecords)
  | _ :: _ =>
      let (c1, r1) := executemany cv p flt c (records_to_insert a) in
      match r1 with
      | inl e => (c1, raise e)
      | inr _ =>
          let (c2, r2) := commit flt c1 in
          match r2 with
          | inl e => (c2, raise e)
          | inr _ =>
              (c2, ret (Written (List.length (records_to_insert a)) (skipped a)))
          end
      end
  end.

(** Lines 31-115 and 194-295, from the decoded body on. *)
Definition process (p : policy) (flt : faults) (now : string)
    (c : connection) (data : pyval) : connection * py report :=
  match get_states data with
  | inl e => (c, raise e)
  | inr states =>
      if truthy states then
        match normalize_all now states with
        | inl e => (c, raise e)
        | inr a => store_batch p flt c a
        end
      else (c, ret NoFlightData)
  end.

(** [fetch_and_append_data], lines 20-123: one request, insert-or-ignore.
    The result is the database after [conn.close()] and what the call
    logged, or the exception that left it. *)
Definition fetch_and_append_data (resp : response) (flt : faults)
    (now : string) (db : table) : table * py report :=
  let c := connect db in
  let (c', r) :=
    match resp with
    | RequestException => (c, ret ApiError)
    | HttpOk data => process InsertOrIgnore flt now c data
    end in
  (close c', except_sqlite_error r).

(** [fetch_data_with_retries], lines 172-185.  [net k] is what the [k]-th
    request gives; the waits of [time.sleep] are collected. *)
Fixpoint retry_from (net : nat -> response) (attempt remaining : nat)
    (waits : list Z) : pyval * list Z :=
  match remaining with
  | O => (PNone, waits)
  | S remaining' =>
      match net attempt with
      | HttpOk body => (body, waits)
      | RequestException =>
          let wait_time := RETRY_BACKOFF_FACTOR ^ Z.of_nat attempt in
          retry_from net (S attempt) remaining' (waits ++ [wait_time])
      end
  end.

Definition fetch_data_with_retries (net : nat -> response) : pyval * list Z :=
  retry_from net 1 MAX_RETRIES [].

(** [fetch_and_upsert_data], lines 188-301. *)
Definition fetch_and_upsert_data (net : nat -> response) (flt : faults)
    (now : string) (db : table) : table * py report :=
  let (data, _) := fetch_data_with_retries net in
  if truthy data then
    let (c', r) := process Upsert flt now (connect db) data in
    (close c', except_sqlite_error r)
  else (db, ret FetchSkipped).

End Cycles.

End Cycle.
Import Cycle.

(** * The two schedulers *)

Module Scheduler.

(** Time in seconds, as a rational number. *)
Definition seconds : Type := Q.

Definition Qltb (a b : Q) : bool := negb (Qle_bool b a).

(** [RUN_DURATION_HOURS] in the first and in the second script. *)
Definition RUN_DURATION_HOURS_6H : Z := 6.
Definition RUN_DURATION_HOURS_24H : Z := 24.

Definition hours (h : Z) : seconds := inject_Z (h * 3600).

(** [max(0, x)] *)
Definition max0 (x : Q) : Q := if Qltb 0 x then x else 0%Q.

(** What the world gives to one cycle, and how long the cycle takes. *)
Record cycle_env : Type := mkEnv {
  env_network : nat -> response;
  env_faults : faults;
  env_now : string;
  env_cost : seconds
}.

(** One entry per cycle that ran: its cost and the sleep that followed. *)
Definition trace : Type := list (seconds * seconds).

Section Loops.

Variable cv : conversions.

(** The loop of the six hour job, lines 133-145.  It stops when the clock
    reaches [end_time], when a cycle lets an exception out, or when [envs]
    is used up. *)
Fixpoint loop_6h (end_time clock : seconds) (db : table)
    (envs : list cycle_env) : table * trace :=
  match envs with
  | [] => (db, [])
  | e :: rest =>
      if Qltb clock end_time then
        match fetch_and_append_data cv (env_network e 1%nat) (env_faults e)
                (env_now e) db with
        | (db', inl _) => (db', [])
        | (db', inr _) =>
            let duration := env_cost e in
            let sleep_time :=
              max0 (inject_Z FETCH_INTERVAL_SECONDS - duration)%Q in
            let (db'', tr) :=
              loop_6h end_time (clock + duration + sleep_time)%Q db' rest in
            (db'', (duration, sleep_time) :: tr)
        end
      else (db, [])
  end.

(** The loop of the twenty-four hour job, lines 308-311. *)
Fixpoint loop_24h (end_time clock : seconds) (db : table)
    (envs : list cycle_env) : table * trace :=
  match envs with
  | [] => (db, [])
  | e :: rest =>
      if Qltb clock end_time then
        match fetch_and_upsert_data cv (env_network e) (env_faults e)
                (env_now e) db with
        | (db', inl _) => (db', [])
        | (db', inr _) =>
            let duration := env_cost e in
            let sleep_time := inject_Z FETCH_INTERVAL_SECONDS in
            let (db'', tr) :=
              loop_24h end_time (clock + duration + sleep_time)%Q db' rest in
            (db'', (duration, sleep_time) :: tr)
        end
      else (db, [])
  end.

(** The two [__main__] blocks:
    [end_time = start_time + timedelta(hours=RUN_DURATION_HOURS)]. *)
Definition main_6h (start_time : seconds) (db : table)
    (envs : list cycle_env) : table * trace :=
  loop_6h (start_time + hours RUN_DURATION_HOURS_6H)%Q start_time db envs.

Definition main_24h (start_time : seconds) (db : table)
    (envs : list cycle_env) : table * trace :=
  loop_24h (start_time + hours RUN_DURATION_HOURS_24H)%Q start_time db envs.

End Loops.

End Scheduler.
Import Scheduler.

(** * Vocabulary of the properties *)

(** The [i]-th field of a raw observation. *)
Definition field (fields : list pyval) (i : nat) : pyval := nth i fields PNone.

(** [v] is a number of the closed interval [[lo, hi]]. *)
Definition in_interval (lo hi : Z) (v : pyval) : Prop :=
  match v with
  | PBool b => lo <= Z.b2z b <= hi
  | PInt z => lo <= z <= hi
  | PFloat (FFin q) => (inject_Z lo <= q /\ q <= inject_Z hi)%Q
  | _ => False
  end.

(** Field [i] is there, is not [None], and is not in [[lo, hi]]. *)
Definition present_outside (lo hi : Z) (fields : list pyval) (i : nat) : Prop :=
  exists v, nth_error fields i = Some v /\ v <> PNone /\ ~ in_interval lo hi v.

(** The observation gives no record: it is counted as skipped, or dropped. *)
Definition not_accepted (o : py outcome) : Prop :=
  o = inr Rejected \/ o = inr Dropped.

(** The validations of lines 42 and 64-82: length, identity, last_contact,
    longitude, latitude, true_track, on_ground and spi. *)
Record passes_validations (fields : list pyval) : Prop := {
  pv_length : (17 <= List.length fields)%nat;
  pv_identity : truthy (field fields 0) = true;
  pv_last_contact : isinstance_int (field fields 4) = true;
  pv_longitude :
    field fields 5 = PNone \/ in_interval (-180) 180 (field fields 5);
  pv_latitude :
    field fields 6 = PNone \/ in_interval (-90) 90 (field fields 6);
  pv_true_track :
    field fields 10 = PNone \/ in_interval 0 360 (field fields 10);
  pv_on_ground : in_0_1 (field fields 8) = true;
  pv_spi : in_0_1 (field fields 15) = true
}.

(** A callsign that line 46 can handle: falsy, or a string. *)
Definition callsign_usable (v : pyval) : Prop :=
  truthy v = false \/ exists s, v = PStr s.

(** A squawk that lines 84-87 can handle: absent, or a string. *)
Definition squawk_usable (v : pyval) : Prop :=
  v = PNone \/ exists s, v = PStr s.

(** The record an accepted observation gives. *)
Definition canonical_callsign (v : pyval) : pyval :=
  match v with
  | PStr s => if truthy v then PStr (upper (strip s)) else PNone
  | _ => PNone
  end.

Definition canonical_squawk (v : pyval) : pyval :=
  match v with
  | PStr s =>
      if (String.length (strip s) =? 4)%nat then PStr (strip s) else PNone
  | _ => PNone
  end.

Definition canonical (fields : list pyval) (now : string) : record :=
  mkTuple
    (field fields 0) (canonical_callsign (field fields 1)) (field fields 2)
    (field fields 3) (field fields 4) (field fields 5) (field fields 6)
    (field fields 7) (field fields 8) (field fields 9) (field fields 10)
    (field fields 11) (field fields 12) (field fields 13)
    (canonical_squawk (field fields 14)) (field fields 15) (field fields 16)
    (PStr now).

(** A record with another position_source. *)
Definition with_position_source (r : record) (v : pyval) : record :=
  mkTuple
    (icao24 r) (callsign r) (origin_country r) (time_position r)
    (last_contact r) (longitude r) (latitude r) (baro_altitude r)
    (on_ground r) (velocity r) (true_track r) (vertical_rate r) (sensors r)
    (geo_altitude r) (squawk r) (spi r) v (fetch_time r).

(** Observations long enough to enter the [try] block. *)
Definition long_enough (fields : list pyval) : bool :=
  (17 <=? List.length fields)%nat.

(** Applying a batch: connect, [executemany], [commit], [close]. *)
Definition apply_batch (cv : conversions) (p : policy) (flt : faults)
    (db : table) (a : acc) : table * py report :=
  let (c, r) := store_batch cv p flt (connect db) a in
  (close c, r).

(** Every statement of the batch executed in turn, nothing refused by the
    engine. *)
Fixpoint run_all (cv : conversions) (p : policy) (t : table)
    (batch : list record) : py table :=
  match batch with
  | [] => ret t
  | params :: rest =>
      r <- stored cv params ;;
      t' <- run_statement p t r ;;
      run_all cv p t' rest
  end.

(** Two rows agree on every column outside the key. *)
Definition agree_off_key (a b : row) : Prop :=
  callsign a = callsign b
  /\ origin_country a = origin_country b
  /\ time_position a = time_position b
  /\ longitude a = longitude b
  /\ latitude a = latitude b
  /\ baro_altitude a = baro_altitude b
  /\ on_ground a = on_ground b
  /\ velocity a = velocity b
  /\ true_track a = true_track b
  /\ vertical_rate a = vertical_rate b
  /\ sensors a = sensors b
  /\ geo_altitude a = geo_altitude b
  /\ squawk a = squawk b
  /\ spi a = spi b
  /\ position_source a = position_source b
  /\ fetch_time a = fetch_time b.

(** ** Sample data *)

(** The tuple of the scenario: ["ABC123", "UAL123  ", "United States", 1000,
    1005, -120.5, 37.5, 10000, 0, 250.0, 90.0, 0, None, 10500, "1200", 0, 0]. *)
Definition scenario : list pyval :=
  [PStr "ABC123"; PStr "UAL123  "; PStr "United States"; PInt 1000; PInt 1005;
   PFloat (FFin (-241 # 2)); PFloat (FFin (75 # 2)); PInt 10000; PInt 0;
   PFloat (FFin 250); PFloat (FFin 90); PInt 0; PNone; PInt 10500;
   PStr "1200"; PInt 0; PInt 0].

(** The observation with [v] in field [i]. *)
Fixpoint set_field (fields : list pyval) (i : nat) (v : pyval) : list pyval :=
  match fields, i with
  | [], _ => []
  | _ :: rest, O => v :: rest
  | f :: rest, S i' => f :: set_field rest i' v
  end.

(** Conversions that are enough for the sample data, where the only
    conversion is of a small integer to a real. *)
Definition sample_conversions : conversions :=
  mkConversions (fun _ => "") (fun _ => None) (fun z => FFin (inject_Z z)).

(** A table that holds the scenario, fetched at "T0". *)
Definition sample_db : table :=
  fst (apply_batch sample_conversions Upsert no_faults []
         (mkAcc [canonical scenario "T0"] 0)).

(** The waits of the fetcher before attempts [first + 1], ...,
    [first + count]. *)
Definition backoff_waits (first count : nat) : list Z :=
  map (fun k => RETRY_BACKOFF_FACTOR ^ Z.of_nat k) (seq first count).

(** * Vocabulary of the further properties *)

(** What a record handed to the sink satisfies. *)
Record sink_ready (now : string) (r : record) : Prop := {
  sr_icao24 : truthy (icao24 r) = true;
  sr_last_contact : isinstance_int (last_contact r) = true;
  sr_longitude : longitude r = PNone \/ in_interval (-180) 180 (longitude r);
  sr_latitude : latitude r = PNone \/ in_interval (-90) 90 (latitude r);
  sr_true_track : true_track r = PNone \/ in_interval 0 360 (true_track r);
  sr_on_ground : in_0_1 (on_ground r) = true;
  sr_spi : in_0_1 (spi r) = true;
  sr_callsign :
    callsign r = PNone
    \/ exists s, callsign r = PStr s /\ strip s = s /\ upper s = s;
  sr_squawk :
    squawk r = PNone
    \/ exists s, squawk r = PStr s /\ String.length s = 4%nat /\ strip s = s;
  sr_fetch_time : fetch_time r = PStr now
}.

(** The observations of a batch of arrays that give a record, and those
    that are counted as skipped. *)
Definition is_accepted (now : string) (fields : list pyval) : bool :=
  match normalize (PList fields) now with
  | inr (Accepted _) => true
  | _ => false
  end.

Definition is_rejected (now : string) (fields : list pyval) : bool :=
  match normalize (PList fields) now with
  | inr Rejected => true
  | _ => false
  end.

(** The values [len] accepts. *)
Definition sized (v : pyval) : bool :=
  match v with
  | PStr _ | PList _ | PDict _ => true
  | _ => false
  end.

(** A decoded body with nothing under "states": the key is missing, or its
    value is falsy ([null], an empty list, ...). *)
Definition no_states (d : list (string * pyval)) : Prop :=
  match find (fun kv => String.eqb (fst kv) "states") d with
  | Some kv => truthy (snd kv) = false
  | None => True
  end.

Definition is_dict (v : pyval) : bool :=
  match v with PDict _ => true | _ => false end.

(** The sum of the waits of a fetch. *)
Definition total_wait (waits : list Z) : Z := fold_right Z.add 0 waits.

(** The two key cells of a row. *)
Definition key_of (r : row) : sqlval * sqlval := (icao24 r, last_contact r).

(** No two rows of the table have the same key. *)
Fixpoint distinct_keys (t : table) : Prop :=
  match t with
  | [] => True
  | r :: t' => existsb (same_key r) t' = false /\ distinct_keys t'
  end.

(** What the declaration of the table promises of its content: every row
    satisfies the NOT NULL and CHECK constraints, and the primary key is
    unique. *)
Definition table_ok (t : table) : Prop :=
  Forall (fun r => constraints_ok r = true) t /\ distinct_keys t.

(** The eighteen values of a tuple, in order. *)
Definition cells_of {A} (r : tuple18 A) : list A :=
  [icao24 r; callsign r; origin_country r; time_position r; last_contact r;
   longitude r; latitude r; baro_altitude r; on_ground r; velocity r;
   true_track r; vertical_rate r; sensors r; geo_altitude r; squawk r; spi r;
   position_source r; fetch_time r].

(** The Python values that cannot be bound to a [?]. *)
Definition unbindable (v : pyval) : bool :=
  match v with
  | PList _ | PDict _ => true
  | PInt z => negb (int64 z)
  | _ => false
  end.

(** Insert-or-update of each row of a list in turn. *)
Definition upsert_rows (t : table) (rs : list row) : table :=
  fold_left insert_or_update rs t.

(** * Setting up the database: [01_DB_created.py] *)

Module Schema.

(** What a database file holds of this schema: the table [opensky_data]
    with its rows when it exists, and which of the two indexes exist.  An
    index holds no data of its own.  A table of that name is taken to be the
    one the script declares, and an index of one of the two names to be the
    index on that table. *)
Record database : Type := mkDb {
  opensky_data : option table;
  idx_origin_country : bool;
  idx_last_contact : bool
}.

(** What [setup_database] logs at the end. *)
Inductive setup_report : Type :=
| SetupDone        (* "Database setup successful. ..." *)
| SetupFailed.     (* "An error occurred during database setup: ..." *)

(** [CREATE TABLE IF NOT EXISTS opensky_data (...)], lines 17-39. *)
Definition create_table (d : database) : py database :=
  match opensky_data d with
  | Some _ => ret d
  | None => ret (mkDb (Some []) (idx_origin_country d) (idx_last_contact d))
  end.

(** [CREATE INDEX IF NOT EXISTS idx_origin_country ON opensky_data
    (origin_country)], lines 42-45: nothing to do when the index exists, an
    error when the table does not. *)
Definition create_country_index (d : database) : py database :=
  if idx_origin_country d then ret d
  else
    match opensky_data d with
    | Some _ => ret (mkDb (opensky_data d) true (idx_last_contact d))
    | None => raise DbError
    end.

(** [CREATE INDEX IF NOT EXISTS idx_last_contact ON opensky_data
    (last_contact)], lines 48-51. *)
Definition create_time_index (d : database) : py database :=
  if idx_last_contact d then ret d
  else
    match opensky_data d with
    | Some _ => ret (mkDb (opensky_data d) (idx_origin_country d) true)
    | None => raise DbError
    end.

(** [cursor.execute] of the [k]-th statement.  No transaction is opened for
    a CREATE statement, so what it does is in the file at once. *)
Definition execute_ddl (flt : faults) (k : nat)
    (stmt : database -> py database) (d : database) : database * py unit :=
  if stmt_fails flt k then (d, raise DbError)
  else
    match stmt d with
    | inl e => (d, raise e)
    | inr d' => (d', ret tt)
    end.

(** [setup_database], lines 7-78: the three statements, [commit], and
    [except sqlite3.Error] around them. *)
Definition setup_database (flt : faults) (d : database)
    : database * setup_report :=
  let (d1, r1) := execute_ddl flt 0 create_table d in
  match r1 with
  | inl _ => (d1, SetupFailed)
  | inr _ =>
      let (d2, r2) := execute_ddl flt 1 create_country_index d1 in
      match r2 with
      | inl _ => (d2, SetupFailed)
      | inr _ =>
          let (d3, r3) := execute_ddl flt 2 create_time_index d2 in
          match r3 with
          | inl _ => (d3, SetupFailed)
          | inr _ =>
              if commit_fails flt then (d3, SetupFailed) else (d3, SetupDone)
          end
      end
  end.

(** The database has the table and its two indexes. *)
Definition ready (d : database) : Prop :=
  opensky_data d <> None
  /\ idx_origin_country d = true
  /\ idx_last_contact d = true.

End Schema.

(** * More vocabulary *)

(** The double nearest to an integer of an interval whose bounds are
    doubles lies in the interval: what is asked of [real_of_int]. *)
Definition rounds_within (cv : conversions) : Prop :=
  forall z lo hi,
    - 2 ^ 53 <= lo -> hi <= 2 ^ 53 -> lo <= z <= hi ->
    check_between (real (real_of_int cv z)) lo hi = true.

(** The time a trace accounts for: the cycles and the sleeps. *)
Definition elapsed (tr : trace) : Q :=
  fold_right (fun ds total => (fst ds + snd ds + total)%Q) 0%Q tr.

(** The endpoint fails every request of the cycle. *)
Definition outage (e : cycle_env) : Prop :=
  forall k, env_network e k = RequestException.

(** * Facts about the normalizer *)

Lemma chain_le_true lo hi v :
  chain_le lo v hi = inr true -> in_interval lo hi v.
Proof.
  unfold chain_le.
  destruct v as [|b|z|[|n|q]|s|l|d]; simpl; try discriminate.
  - destruct (lo <=? Z.b2z b) eqn:E1; simpl; intros H; inversion H.
    apply Z.leb_le in E1. apply Z.leb_le in H1. lia.
  - destruct (lo <=? z) eqn:E1; simpl; intros H; inversion H.
    apply Z.leb_le in E1. apply Z.leb_le in H1. lia.
  - destruct n; simpl; discriminate.
  - destruct (Qle_bool (inject_Z lo) q) eqn:E1; simpl; intros H; inversion H.
    split; now apply Qle_bool_iff.
Qed.

Lemma in_interval_chain_le lo hi v :
  in_interval lo hi v -> chain_le lo v hi = inr true.
Proof.
  unfold chain_le.
  destruct v as [|b|z|[|n|q]|s|l|d]; simpl; try contradiction.
  - intros [H1 H2]. apply Z.leb_le in H1, H2. now rewrite H1, H2.
  - intros [H1 H2]. apply Z.leb_le in H1, H2. now rewrite H1, H2.
  - intros [H1 H2]. apply Qle_bool_iff in H1, H2. now rewrite H1, H2.
Qed.

Lemma out_of_range_false lo hi v :
  out_of_range lo v hi = inr false -> v = PNone \/ in_interval lo hi v.
Proof.
  unfold out_of_range. destruct (is_none v) eqn:E.
  - destruct v; try discriminate. now left.
  - intros H. right. apply chain_le_true.
    destruct (chain_le lo v hi) as [e|[|]]; simpl in H; try discriminate.
    reflexivity.
Qed.

Lemma out_of_range_ok lo hi v :
  v = PNone \/ in_interval lo hi v -> out_of_range lo v hi = inr false.
Proof.
  intros [->|H]; [reflexivity|].
  unfold out_of_range. rewrite (in_interval_chain_le _ _ _ H).
  destruct v; try contradiction; reflexivity.
Qed.

(** An observation of at least 17 fields, field by field. *)
Lemma seventeen (fields : list pyval) :
  (17 <= List.length fields)%nat ->
  exists f0 f1 f2 f3 f4 f5 f6 f7 f8 f9 f10 f11 f12 f13 f14 f15 f16 rest,
    fields = f0 :: f1 :: f2 :: f3 :: f4 :: f5 :: f6 :: f7 :: f8 :: f9 :: f10
             :: f11 :: f12 :: f13 :: f14 :: f15 :: f16 :: rest.
Proof.
  intros H.
  do 17 (destruct fields as [|? fields]; [simpl in H; lia|]).
  repeat eexists.
Qed.

Ltac fields17 fields H :=
  let f0 := fresh "f0" in let f1 := fresh "f1" in let f2 := fresh "f2" in
  let f3 := fresh "f3" in let f4 := fresh "f4" in let f5 := fresh "f5" in
  let f6 := fresh "f6" in let f7 := fresh "f7" in let f8 := fresh "f8" in
  let f9 := fresh "f9" in let f10 := fresh "f10" in let f11 := fresh "f11" in
  let f12 := fresh "f12" in let f13 := fresh "f13" in let f14 := fresh "f14" in
  let f15 := fresh "f15" in let f16 := fresh "f16" in
  let rest := fresh "rest" in
  destruct (seventeen fields H)
    as (f0 & f1 & f2 & f3 & f4 & f5 & f6 & f7 & f8 & f9 & f10 & f11 & f12
        & f13 & f14 & f15 & f16 & rest & ->).

Ltac run_block :=
  unfold normalize, try_block;
  cbn [py_len bind ret getitem nth_error List.length Nat.leb].

Lemma normalize_short fields now :
  (List.length fields < 17)%nat -> normalize (PList fields) now = inr Dropped.
Proof.
  intros H. unfold normalize. cbn [py_len bind ret].
  destruct (17 <=? List.length fields)%nat eqn:E; [|reflexivity].
  apply Nat.leb_le in E. lia.
Qed.

(** On a list, the loop body never lets an exception out, and drops exactly
    the short observations. *)
Lemma normalize_list fields now :
  exists o, normalize (PList fields) now = inr o
            /\ (o = Dropped <-> long_enough fields = false).
Proof.
  unfold normalize, long_enough. cbn [py_len bind ret].
  destruct (17 <=? List.length fields)%nat.
  - destruct (try_block (PList fields) now) as [e|[r|]];
      eexists; (split; [reflexivity|]); split; discriminate.
  - eexists; split; [reflexivity|]. now split.
Qed.

Lemma callsign_usable_extract v :
  callsign_usable v ->
  (if truthy v then t <- call_strip v ;; call_upper t else ret PNone)
  = inr (canonical_callsign v).
Proof.
  intros [H|[s ->]].
  - rewrite H. destruct v; try reflexivity. simpl in *. now rewrite H.
  - simpl. now destruct s.
Qed.

Lemma squawk_usable_clean v :
  squawk_usable v -> clean_squawk v = inr (canonical_squawk v).
Proof.
  intros [->|[s ->]]; [reflexivity|].
  unfold clean_squawk. simpl.
  now destruct (String.length (strip s) =? 4)%nat.
Qed.

(** What passes every check is accepted, with the fields as given, the
    callsign trimmed and uppercased, the squawk trimmed or dropped. *)
Lemma accepted_record fields now :
  passes_validations fields ->
  callsign_usable (field fields 1) ->
  squawk_usable (field fields 14) ->
  normalize (PList fields) now = inr (Accepted (canonical fields now)).
Proof.
  intros [Hlen Hid Hlc Hlon Hlat Htr Hog Hspi] Hcs Hsq.
  fields17 fields Hlen. unfold canonical, field in *. cbn [nth] in *.
  run_block.
  rewrite (callsign_usable_extract _ Hcs). cbn [bind ret].
  rewrite Hid, Hlc. cbn [negb orb].
  rewrite (out_of_range_ok _ _ _ Hlon). cbn [bind ret].
  rewrite (out_of_range_ok _ _ _ Hlat). cbn [bind ret].
  rewrite (out_of_range_ok _ _ _ Htr). cbn [bind ret].
  rewrite Hog, Hspi. cbn [negb orb].
  rewrite (squawk_usable_clean _ Hsq). reflexivity.
Qed.

Lemma callsign_extract_inv v cs :
  (if truthy v then t <- call_strip v ;; call_upper t else ret PNone) = inr cs ->
  callsign_usable v /\ cs = canonical_callsign v.
Proof.
  destruct (truthy v) eqn:E.
  - destruct v; cbn [call_strip call_upper bind ret raise]; try discriminate.
    intros H. injection H as <-. split.
    + right. now eexists.
    + cbn [canonical_callsign]. now rewrite E.
  - intros H. injection H as <-. split; [now left|].
    destruct v; try reflexivity. cbn [canonical_callsign]. now rewrite E.
Qed.

Lemma clean_squawk_inv v sq :
  clean_squawk v = inr sq -> squawk_usable v /\ sq = canonical_squawk v.
Proof.
  unfold clean_squawk.
  destruct v; cbn [is_none call_strip py_len bind ret raise];
    try discriminate.
  - intros H. injection H as <-. split; [now left|reflexivity].
  - intros H. split; [right; now eexists|].
    cbn [canonical_squawk].
    destruct (String.length (strip s) =? 4)%nat; now injection H as <-.
Qed.

(** What is accepted passed every check, and the record is the canonical
    one. *)
Lemma accepted_inv fields now r :
  normalize (PList fields) now = inr (Accepted r) ->
  passes_validations fields
  /\ callsign_usable (field fields 1)
  /\ squawk_usable (field fields 14)
  /\ r = canonical fields now.
Proof.
  intros H.
  destruct (Nat.lt_ge_cases (List.length fields) 17) as [Hs|Hl].
  { rewrite normalize_short in H by assumption. discriminate. }
  fields17 fields Hl. unfold canonical, field. cbn [nth].
  revert H. run_block.
  destruct (if truthy f1 then _ else _) as [e|cs] eqn:Ecs; cbn [bind ret];
    [discriminate|].
  destruct (callsign_extract_inv _ _ Ecs) as [Hcs ->].
  destruct (truthy f0) eqn:E0; cbn [negb orb]; [|discriminate].
  destruct (isinstance_int f4) eqn:E4; cbn [negb]; [|discriminate].
  destruct (out_of_range (-180) f5 180) as [e|[|]] eqn:Elon; cbn [bind ret];
    try discriminate.
  destruct (out_of_range (-90) f6 90) as [e|[|]] eqn:Elat; cbn [bind ret];
    try discriminate.
  destruct (out_of_range 0 f10 360) as [e|[|]] eqn:Etr; cbn [bind ret];
    try discriminate.
  destruct (in_0_1 f8) eqn:E8; cbn [negb orb]; [|discriminate].
  destruct (in_0_1 f15) eqn:E15; cbn [negb]; [|discriminate].
  destruct (clean_squawk f14) as [e|sq] eqn:Esq; cbn [bind ret];
    [discriminate|].
  destruct (clean_squawk_inv _ _ Esq) as [Hsq ->].
  intros H. injection H as <-.
  apply out_of_range_false in Elon, Elat, Etr.
  repeat split; assumption.
Qed.

Lemma length_set_field fields i v :
  List.length (set_field fields i v) = List.length fields.
Proof.
  revert i. induction fields as [|f fields IH]; intros [|i]; cbn;
    try reflexivity. now rewrite IH.
Qed.

(** The validations do not look at fields 14 and 16. *)
Lemma passes_validations_set fields i v :
  i = 14%nat \/ i = 16%nat ->
  passes_validations fields ->
  passes_validations (set_field fields i v).
Proof.
  intros Hi [Hlen Hid Hlc Hlon Hlat Htr Hog Hspi].
  fields17 fields Hlen. unfold field in *.
  destruct Hi as [-> | ->]; cbn [set_field nth] in *;
    constructor; unfold field; cbn [nth]; try assumption; cbn; lia.
Qed.

(** C1. An observation whose longitude is present and outside [-180, 180],
    or whose latitude is present and outside [-90, 90], or whose true_track
    is present and outside [0, 360], gives no canonical record, and the loop
    body leaves the list handed to the sink as it was. *)
Theorem out_of_range_observation_rejected fields now :
  present_outside (-180) 180 fields 5
  \/ present_outside (-90) 90 fields 6
  \/ present_outside 0 360 fields 10 ->
  not_accepted (normalize (PList fields) now)
  /\ forall a, exists a',
       step now a (PList fields) = inr a'
       /\ records_to_insert a' = records_to_insert a.
Proof.
  intros H.
  assert (Hn : not_accepted (normalize (PList fields) now)).
  { destruct (Nat.lt_ge_cases (List.length fields) 17) as [Hs|Hl].
    { right. now apply normalize_short. }
    left. fields17 fields Hl. run_block.
    destruct (if truthy f1 then _ else _) as [e|cs]; cbn [bind ret];
      [reflexivity|].
    destruct (negb (truthy f0) || negb (isinstance_int f4)); [reflexivity|].
    destruct (out_of_range (-180) f5 180) as [e|[|]] eqn:Elon;
      cbn [bind ret]; try reflexivity.
    destruct (out_of_range (-90) f6 90) as [e|[|]] eqn:Elat;
      cbn [bind ret]; try reflexivity.
    destruct (out_of_range 0 f10 360) as [e|[|]] eqn:Etr;
      cbn [bind ret]; try reflexivity.
    exfalso.
    apply out_of_range_false in Elon, Elat, Etr.
    destruct H as [(v & Hv & Hp & Ho)|[(v & Hv & Hp & Ho)|(v & Hv & Hp & Ho)]];
      cbn in Hv; injection Hv as <-; tauto. }
  split; [exact Hn|].
  intros a. unfold step.
  destruct Hn as [-> | ->]; cbn [bind ret]; eexists; split; reflexivity.
Qed.

Lemma out_of_range_observation_rejected_witness :
  let fields := set_field scenario 6 (PFloat (FFin 95)) in
  present_outside (-90) 90 fields 6
  /\ normalize (PList fields) "T" = inr Rejected
  /\ not_accepted (normalize (PList fields) "T").
Proof.
  cbv zeta.
  assert (H : present_outside (-90) 90
                (set_field scenario 6 (PFloat (FFin 95))) 6).
  { exists (PFloat (FFin 95)).
    split; [reflexivity|]. split; [discriminate|].
    simpl. intros [_ H]. apply Qle_bool_iff in H. discriminate. }
  split; [exact H|]. split; [reflexivity|].
  apply (out_of_range_observation_rejected
           (set_field scenario 6 (PFloat (FFin 95))) "T").
  right. left. exact H.
Defined.

Lemma loop_counts now (states : list (list pyval)) : forall a,
  exists a', loop now a (map PList states) = inr a'
    /\ (List.length (records_to_insert a') + skipped a'
        = List.length (records_to_insert a) + skipped a
          + List.length (filter long_enough states))%nat.
Proof.
  induction states as [|fields states IH]; intros a; cbn [map loop filter].
  - exists a. split; [reflexivity|]. cbn. lia.
  - unfold step.
    destruct (normalize_list fields now) as (o & -> & Ho). cbn [bind ret].
    match goal with |- context [loop now ?x _] => destruct (IH x) as (a' & E & Hc) end.
    exists a'. split; [exact E|]. rewrite Hc.
    destruct o; cbn [records_to_insert skipped].
    + destruct (long_enough fields) eqn:El;
        [|destruct Ho as [_ Ho]; now specialize (Ho eq_refl)].
      rewrite length_app. cbn. lia.
    + destruct (long_enough fields) eqn:El;
        [|destruct Ho as [_ Ho]; now specialize (Ho eq_refl)].
      cbn. lia.
    + destruct Ho as [Ho _]. rewrite (Ho eq_refl). lia.
Qed.

(** C6, as the code has it.  For a batch of arrays the loop ends, and the
    accepted records plus the skipped count are the observations of at
    least 17 fields; shorter observations are dropped without being
    counted. *)
Theorem accepted_plus_skipped_counts_long_observations
    now (states : list (list pyval)) :
  exists a, normalize_all now (PList (map PList states)) = inr a
    /\ (List.length (records_to_insert a) + skipped a
        = List.length (filter long_enough states))%nat.
Proof.
  unfold normalize_all. cbn [py_iter bind ret].
  destruct (loop_counts now states (mkAcc [] 0)) as (a & E & Hc).
  exists a. split; [exact E|]. rewrite Hc. reflexivity.
Qed.

(** C6 fails as stated: with one good observation and one of a single
    field, one record is accepted, none is counted as skipped, and the
    batch has two observations. *)
Lemma short_observation_uncounted :
  let states := [PList scenario; PList [PStr "ABC123"]] in
  exists a, normalize_all "T" (PList states) = inr a
    /\ (List.length (records_to_insert a) + skipped a)%nat
       <> List.length states.
Proof.
  eexists. split; [vm_compute; reflexivity|]. vm_compute. discriminate.
Qed.

(** C7. A squawk that is a string whose trimmed length is not 4 never
    causes rejection: if the observation without its squawk is accepted, so
    is the observation, with the same record, where the squawk is absent;
    in particular it is accepted when it passes the validations and its
    callsign is falsy or a string. *)
Theorem bad_squawk_coerced_to_absent fields now s :
  field fields 14 = PStr s ->
  String.length (strip s) <> 4%nat ->
  (forall r,
     normalize (PList (set_field fields 14 PNone)) now = inr (Accepted r) ->
     normalize (PList fields) now = inr (Accepted r) /\ squawk r = PNone)
  /\ (passes_validations fields ->
      callsign_usable (field fields 1) ->
      exists r, normalize (PList fields) now = inr (Accepted r)
                /\ squawk r = PNone).
Proof.
  intros H14 Hlen.
  assert (Hsq : canonical_squawk (PStr s) = PNone).
  { cbn [canonical_squawk].
    destruct (String.length (strip s) =? 4)%nat eqn:E; [|reflexivity].
    apply Nat.eqb_eq in E. contradiction. }
  split.
  - intros r Hr.
    destruct (accepted_inv _ _ _ Hr) as (Hv & Hcs & _ & ->).
    assert (Hl : (17 <= List.length fields)%nat).
    { rewrite <- (length_set_field fields 14 PNone). apply Hv. }
    fields17 fields Hl. unfold field in H14. cbn [nth] in H14. subst f14.
    apply (passes_validations_set _ 14%nat (PStr s)) in Hv; [|now left].
    cbn [set_field] in Hv, Hcs |- *.
    rewrite accepted_record; try assumption; [|right; now exists s].
    unfold canonical, field. cbn [nth squawk]. rewrite Hsq. now split.
  - intros Hv Hcs. exists (canonical fields now). split.
    + apply accepted_record; try assumption. right. now exists s.
    + cbn [canonical squawk]. now rewrite H14.
Qed.

Lemma scenario_passes v1 v14 v16 :
  passes_validations
    (set_field (set_field (set_field scenario 1 v1) 14 v14) 16 v16).
Proof.
  constructor; try reflexivity;
    right; cbn; split; apply Qle_bool_iff; reflexivity.
Qed.

Lemma bad_squawk_coerced_to_absent_witness :
  let fields := set_field scenario 14 (PStr " 12 ") in
  String.length (strip " 12 ") <> 4%nat
  /\ normalize (PList (set_field fields 14 PNone)) "T"
     = inr (Accepted (canonical (set_field fields 14 PNone) "T"))
  /\ normalize (PList fields) "T"
     = inr (Accepted (canonical (set_field fields 14 PNone) "T"))
  /\ squawk (canonical (set_field fields 14 PNone) "T") = PNone.
Proof.
  cbv zeta.
  assert (H : String.length (strip " 12 ") <> 4%nat) by (vm_compute; lia).
  split; [exact H|]. split; [reflexivity|].
  destruct (bad_squawk_coerced_to_absent
              (set_field scenario 14 (PStr " 12 ")) "T" " 12 " eq_refl H)
    as [Hrel _].
  apply Hrel. reflexivity.
Defined.

(** C9. The tuple of the scenario is accepted; the callsign is trimmed and
    uppercased, the squawk kept, on_ground and spi are the 0 that equals
    [False], and fetch_time is the one supplied. *)
Theorem scenario_accepted (T : string) :
  exists r, normalize (PList scenario) T = inr (Accepted r)
    /\ callsign r = PStr "UAL123"
    /\ squawk r = PStr "1200"
    /\ on_ground r = PInt 0 /\ eq_bool (on_ground r) false = true
    /\ spi r = PInt 0 /\ eq_bool (spi r) false = true
    /\ fetch_time r = PStr T.
Proof.
  eexists. split; [reflexivity|]. cbn. repeat split.
Qed.

(** C10 fails as stated: with a number as squawk, or a number as callsign,
    the observation passes the validations of identity, last_contact,
    longitude, latitude, true_track, on_ground and spi, and is rejected all
    the same. *)
Lemma validations_pass_yet_rejected :
  let numeric_squawk := set_field scenario 14 (PInt 1200) in
  let numeric_callsign := set_field scenario 1 (PInt 5) in
  (passes_validations numeric_squawk
   /\ normalize (PList numeric_squawk) "T" = inr Rejected)
  /\ (passes_validations numeric_callsign
      /\ normalize (PList numeric_callsign) "T" = inr Rejected).
Proof.
  split; (split; [|reflexivity]).
  - apply (scenario_passes (PStr "UAL123  ") (PInt 1200) (PInt 0)).
  - apply (scenario_passes (PInt 5) (PStr "1200") (PInt 0)).
Qed.

(** * Facts about the store *)

(** ** The key *)

Lemma float_eqb_sym f g : float_eqb f g = float_eqb g f.
Proof.
  destruct f as [|a|p], g as [|b|q]; simpl; try reflexivity.
  - now destruct a, b.
  - destruct (Qeq_bool p q) eqn:E, (Qeq_bool q p) eqn:E'; try reflexivity.
    + apply Qeq_bool_iff in E. symmetry in E. apply Qeq_bool_iff in E.
      congruence.
    + apply Qeq_bool_iff in E'. symmetry in E'. apply Qeq_bool_iff in E'.
      congruence.
Qed.

Lemma float_eqb_trans f g h :
  float_eqb f g = true -> float_eqb g h = true -> float_eqb f h = true.
Proof.
  destruct f as [|a|p], g as [|b|q], h as [|c|r]; simpl; try discriminate.
  - destruct a, b, c; simpl; congruence.
  - intros H1 H2. apply Qeq_bool_iff in H1, H2. apply Qeq_bool_iff.
    now rewrite H1.
Qed.

Lemma float_eqb_inject x y :
  float_eqb (FFin (inject_Z x)) (FFin (inject_Z y)) = (x =? y).
Proof.
  simpl. unfold Qeq_bool, inject_Z. simpl. now rewrite !Z.mul_1_r.
Qed.

Lemma sql_eqb_sym a b : sql_eqb a b = sql_eqb b a.
Proof.
  destruct a, b; cbn [sql_eqb]; try reflexivity.
  - apply Z.eqb_sym.
  - apply float_eqb_sym.
  - apply float_eqb_sym.
  - apply float_eqb_sym.
  - apply String.eqb_sym.
Qed.

Lemma sql_eqb_trans a b c :
  sql_eqb a b = true -> sql_eqb b c = true -> sql_eqb a c = true.
Proof.
  destruct a as [|x|f|s], b as [|y|g|t], c as [|z|h|u];
    cbn [sql_eqb]; try discriminate; intros H1 H2;
    rewrite <- ?float_eqb_inject in *;
    try (eapply float_eqb_trans; eassumption).
  apply String.eqb_eq in H1, H2. apply String.eqb_eq. congruence.
Qed.

Lemma same_key_sym a b : same_key a b = same_key b a.
Proof.
  unfold same_key.
  now rewrite (sql_eqb_sym (icao24 a)), (sql_eqb_sym (last_contact a)).
Qed.

Lemma same_key_trans a b c :
  same_key a b = true -> same_key b c = true -> same_key a c = true.
Proof.
  unfold same_key. intros H1 H2.
  apply andb_true_iff in H1, H2. destruct H1 as [H1 H1'], H2 as [H2 H2'].
  apply andb_true_iff. split; eapply sql_eqb_trans; eassumption.
Qed.

(** The key of a row is what [same_key] looks at. *)
Lemma same_key_cells r a b :
  icao24 a = icao24 b -> last_contact a = last_contact b ->
  same_key r a = same_key r b.
Proof. unfold same_key. now intros -> ->. Qed.

Lemma same_key_do_update r old excluded :
  same_key r (do_update old excluded) = same_key r old.
Proof. reflexivity. Qed.

(** ** What [stored] gives *)

Lemma bind_parameters_cells r cells :
  bind_parameters r = inr cells ->
  bind_param (icao24 r) = inr (icao24 cells)
  /\ bind_param (last_contact r) = inr (last_contact cells)
  /\ bind_param (position_source r) = inr (position_source cells).
Proof.
  unfold bind_parameters.
  repeat match goal with
         | |- context [bind (bind_param ?v) _] =>
             destruct (bind_param v) eqn:?; cbn [bind]; [discriminate|]
         end.
  intros H. injection H as <-. cbn. auto.
Qed.

Lemma stored_cells cv r row :
  stored cv r = inr row ->
  exists cells,
    bind_parameters r = inr cells
    /\ row = tuple_map2 (apply_affinity cv) column_affinity cells.
Proof.
  unfold stored. destruct (bind_parameters r) as [e|cells]; cbn [bind ret];
    [discriminate|].
  intros H. injection H as <-. now exists cells.
Qed.

Lemma bind_param_real v f : bind_param v = inr (SReal f) -> f <> FNan.
Proof.
  destruct v as [|b|z|[|n|q]|s|l|d]; simpl; try discriminate.
  - destruct (int64 z); discriminate.
  - intros H. injection H as <-. discriminate.
  - intros H. injection H as <-. discriminate.
Qed.

Lemma float_eqb_refl f : f <> FNan -> float_eqb f f = true.
Proof.
  destruct f as [|a|q]; simpl; intros H.
  - contradiction.
  - now destruct a.
  - apply Qeq_bool_iff. reflexivity.
Qed.

Lemma real_eqb_refl f : real f <> SNull -> sql_eqb (real f) (real f) = true.
Proof.
  destruct f as [|a|q]; simpl; intros H.
  - contradiction.
  - now destruct a.
  - apply Qeq_bool_iff. reflexivity.
Qed.

Lemma integer_if_exact_refl f :
  integer_if_exact f <> SNull ->
  sql_eqb (integer_if_exact f) (integer_if_exact f) = true.
Proof.
  destruct f as [|a|q]; cbn [integer_if_exact].
  - intros H. now apply real_eqb_refl.
  - intros H. now apply real_eqb_refl.
  - intros _. destruct (_ && _); simpl.
    + apply Z.eqb_refl.
    + apply Qeq_bool_iff. reflexivity.
Qed.

(** A stored key cell that is not NULL equals itself. *)
Lemma stored_cell_refl cv a v c :
  bind_param v = inr c ->
  apply_affinity cv a c <> SNull ->
  sql_eqb (apply_affinity cv a c) (apply_affinity cv a c) = true.
Proof.
  intros Hb Hn.
  destruct c as [|z|f|s].
  - destruct a; simpl in *; contradiction.
  - destruct a; simpl in *; try apply Z.eqb_refl.
    + apply String.eqb_refl.
    + now apply real_eqb_refl.
  - apply bind_param_real in Hb.
    destruct a; cbn [apply_affinity] in *.
    + apply String.eqb_refl.
    + now apply integer_if_exact_refl.
    + simpl. now apply float_eqb_refl.
    + now apply integer_if_exact_refl.
  - destruct a; cbn [apply_affinity] in *.
    + apply String.eqb_refl.
    + destruct (numeric_of_text cv s) as [[z|f]|]; simpl.
      * apply Z.eqb_refl.
      * now apply integer_if_exact_refl.
      * apply String.eqb_refl.
    + destruct (numeric_of_text cv s) as [[z|f]|]; simpl.
      * now apply real_eqb_refl.
      * now apply real_eqb_refl.
      * apply String.eqb_refl.
    + destruct (numeric_of_text cv s) as [[z|f]|]; simpl.
      * apply Z.eqb_refl.
      * now apply integer_if_exact_refl.
      * apply String.eqb_refl.
Qed.

Lemma not_null_neq v : not_null v = true -> v <> SNull.
Proof. destruct v; simpl; congruence. Qed.

Lemma constraints_ok_key r :
  constraints_ok r = true ->
  not_null (icao24 r) = true /\ not_null (last_contact r) = true.
Proof.
  unfold constraints_ok. intros H.
  repeat (apply andb_true_iff in H; destruct H as [H ?]). auto.
Qed.

(** A row that passed the constraints conflicts with itself. *)
Lemma stored_same_key_refl cv r row :
  stored cv r = inr row ->
  constraints_ok row = true ->
  same_key row row = true.
Proof.
  intros Hs Hc.
  destruct (stored_cells _ _ _ Hs) as (cells & Hb & ->).
  destruct (bind_parameters_cells _ _ Hb) as (H0 & H4 & _).
  destruct (constraints_ok_key _ Hc) as [Hn0 Hn4].
  apply not_null_neq in Hn0, Hn4. cbn in Hn0, Hn4.
  unfold same_key. cbn [tuple_map2 icao24 last_contact column_affinity].
  apply andb_true_iff. split; eapply stored_cell_refl; eassumption.
Qed.

(** ** Running a batch *)

Section Batch.

Variable cv : conversions.

Lemma execute_inr p flt k t params t' :
  execute cv p flt k t params = inr t' ->
  exists row, stored cv params = inr row
              /\ stmt_fails flt k = false
              /\ run_statement p t row = inr t'.
Proof.
  unfold execute. destruct (stored cv params) as [e|row]; cbn [bind];
    [discriminate|].
  destruct (stmt_fails flt k); [discriminate|].
  intros H. now exists row.
Qed.

Lemma executemany_run_all p flt batch : forall k t t' u,
  executemany_from cv p flt k t batch = (t', inr u) ->
  run_all cv p t batch = inr t'.
Proof.
  induction batch as [|params rest IH]; intros k t t' u; cbn [executemany_from run_all].
  - intros H. now injection H as ->.
  - destruct (execute cv p flt k t params) as [e|t1] eqn:E; [discriminate|].
    destruct (execute_inr _ _ _ _ _ _ E) as (row & Hs & _ & Hr).
    rewrite Hs. cbn [bind]. rewrite Hr. cbn [bind]. apply IH.
Qed.

Lemma run_all_app p l1 l2 : forall t,
  run_all cv p t (l1 ++ l2) = (t1 <- run_all cv p t l1 ;; run_all cv p t1 l2).
Proof.
  induction l1 as [|params l1 IH]; intros t; cbn [app run_all bind ret].
  - reflexivity.
  - destruct (stored cv params) as [e|row]; cbn [bind]; [reflexivity|].
    destruct (run_statement p t row) as [e|t1]; cbn [bind]; [reflexivity|].
    apply IH.
Qed.

(** The three ways [apply_batch] can end. *)
Lemma apply_batch_cases p flt db a :
  (records_to_insert a = []
   /\ apply_batch cv p flt db a = (db, inr NoValidRecords))
  \/ (exists e, apply_batch cv p flt db a = (db, inl e))
  \/ (exists t u,
        executemany_from cv p flt 0 db (records_to_insert a) = (t, inr u)
        /\ apply_batch cv p flt db a
           = (t, inr (Written (List.length (records_to_insert a)) (skipped a)))).
Proof.
  unfold apply_batch, store_batch, executemany, commit, connect, close.
  destruct (records_to_insert a) as [|r0 rest] eqn:Er.
  - left. now split.
  - right. cbn [pending durable].
    destruct (executemany_from cv p flt 0 db (r0 :: rest)) as [t [e|u]].
    + left. now exists e.
    + destruct (commit_fails flt).
      * left. now exists DbError.
      * right. now exists t, u.
Qed.

(** *** Rows stay reachable by their key *)

Lemma existsb_app_l {A} (f : A -> bool) l l' :
  existsb f l = true -> existsb f (l ++ l') = true.
Proof. intros H. rewrite existsb_app, H. reflexivity. Qed.

Lemma insert_or_ignore_grows t r : exists added, insert_or_ignore t r = t ++ added.
Proof.
  unfold insert_or_ignore. destruct (_ && _).
  - now exists [r].
  - exists []. now rewrite app_nil_r.
Qed.

Lemma insert_or_update_keeps r row : forall t,
  existsb (same_key row) t = true ->
  existsb (same_key row) (insert_or_update t r) = true.
Proof.
  induction t as [|old t IH]; cbn [insert_or_update existsb]; [discriminate|].
  intros H. destruct (same_key r old); cbn [existsb].
  - now rewrite same_key_do_update.
  - apply orb_true_iff in H. apply orb_true_iff.
    destruct H as [H|H]; [now left|right; now apply IH].
Qed.

Lemma insert_or_update_has r : forall t,
  same_key r r = true ->
  existsb (same_key r) (insert_or_update t r) = true.
Proof.
  intros t Hr. induction t as [|old t IH]; cbn [insert_or_update existsb].
  - now rewrite Hr.
  - destruct (same_key r old) eqn:E; cbn [existsb].
    + now rewrite same_key_do_update, E.
    + now rewrite E, IH.
Qed.

Lemma run_statement_keeps p t r t' row :
  run_statement p t r = inr t' ->
  existsb (same_key row) t = true ->
  existsb (same_key row) t' = true.
Proof.
  destruct p; cbn [run_statement ret].
  - intros H. injection H as <-.
    destruct (insert_or_ignore_grows t r) as (added & ->).
    apply existsb_app_l.
  - destruct (constraints_ok r); [|discriminate].
    intros H. injection H as <-. apply insert_or_update_keeps.
Qed.

Lemma run_statement_has p t params row t' :
  stored cv params = inr row ->
  run_statement p t row = inr t' ->
  constraints_ok row = true ->
  existsb (same_key row) t' = true.
Proof.
  intros Hs Hr Hc.
  pose proof (stored_same_key_refl _ _ _ Hs Hc) as Hk.
  destruct p; cbn [run_statement ret] in Hr.
  - injection Hr as <-. unfold insert_or_ignore. rewrite Hc. cbn [andb].
    destruct (existsb (same_key row) t) eqn:E; cbn [negb]; [exact E|].
    rewrite existsb_app. cbn [existsb]. now rewrite Hk, orb_true_r.
  - rewrite Hc in Hr. injection Hr as <-. now apply insert_or_update_has.
Qed.

Lemma run_all_keeps p batch row : forall t t',
  run_all cv p t batch = inr t' ->
  existsb (same_key row) t = true ->
  existsb (same_key row) t' = true.
Proof.
  induction batch as [|params rest IH]; intros t t'; cbn [run_all ret].
  - intros H. now injection H as <-.
  - destruct (stored cv params) as [e|r]; cbn [bind]; [discriminate|].
    destruct (run_statement p t r) as [e|t1] eqn:E; cbn [bind]; [discriminate|].
    intros H Hx. eapply IH; [exact H|]. eapply run_statement_keeps; eassumption.
Qed.

(** After the whole batch, every record whose row satisfies the constraints
    of the table has a row under its key. *)
Lemma run_all_written p batch : forall t t',
  run_all cv p t batch = inr t' ->
  forall params, In params batch ->
    exists row, stored cv params = inr row
                /\ (constraints_ok row = true ->
                    existsb (same_key row) t' = true).
Proof.
  induction batch as [|params0 rest IH]; intros t t' H params Hin;
    [contradiction|].
  cbn [run_all] in H.
  destruct (stored cv params0) as [e|r] eqn:Es; cbn [bind] in H; [discriminate|].
  destruct (run_statement p t r) as [e|t1] eqn:E; cbn [bind] in H;
    [discriminate|].
  destruct Hin as [<-|Hin].
  - exists r. split; [exact Es|]. intros Hc.
    eapply run_all_keeps; [exact H|]. eapply run_statement_has; eassumption.
  - eapply IH; eassumption.
Qed.

End Batch.

(** C4. Applying a batch is all or nothing, under either policy and
    whatever the engine refuses: either the call ends with an exception and
    the database is the one before the call, or (the batch being empty)
    nothing is executed, or every statement of the batch has been executed
    and committed, so that every record whose row satisfies the constraints
    of the table has a row under its key. *)
Theorem apply_batch_atomic cv p flt db a :
  let out := apply_batch cv p flt db a in
  ((exists e, snd out = inl e) /\ fst out = db)
  \/ (records_to_insert a = [] /\ out = (db, inr NoValidRecords))
  \/ (snd out = inr (Written (List.length (records_to_insert a)) (skipped a))
      /\ run_all cv p db (records_to_insert a) = inr (fst out)
      /\ forall params, In params (records_to_insert a) ->
           exists row, stored cv params = inr row
                       /\ (constraints_ok row = true ->
                           existsb (same_key row) (fst out) = true)).
Proof.
  cbv zeta.
  destruct (apply_batch_cases cv p flt db a)
    as [[He ->]|[[e ->]|(t & u & Hx & ->)]]; cbn [fst snd].
  - right. left. now split.
  - left. split; [now exists e|reflexivity].
  - right. right. apply executemany_run_all in Hx.
    split; [reflexivity|]. split; [exact Hx|].
    now apply run_all_written with (p := p) (t := db).
Qed.

(** ** Insert-or-ignore *)

Section Ignore.

Variable cv : conversions.

(** A committed insert-or-ignore only adds rows at the end, and leaves
    every record of the batch without effect from then on. *)
Lemma ignore_settles flt batch : forall k t t' u,
  executemany_from cv InsertOrIgnore flt k t batch = (t', inr u) ->
  (exists added, t' = t ++ added)
  /\ forall params, In params batch ->
       exists row, stored cv params = inr row /\ insert_or_ignore t' row = t'.
Proof.
  induction batch as [|params0 rest IH]; intros k t t' u;
    cbn [executemany_from].
  - intros H. injection H as <- <-. split; [exists []; now rewrite app_nil_r|].
    contradiction.
  - destruct (execute cv InsertOrIgnore flt k t params0) as [e|t1] eqn:E;
      [discriminate|].
    intros H. destruct (IH _ _ _ _ H) as ((added & ->) & Hrest).
    destruct (execute_inr _ _ _ _ _ _ _ E) as (row & Hs & _ & Hr).
    cbn [run_statement ret] in Hr. injection Hr as <-.
    destruct (insert_or_ignore_grows t row) as (added0 & Ea).
    split.
    { exists (added0 ++ added). now rewrite Ea, app_assoc. }
    intros params [<-|Hin]; [|now apply Hrest].
    exists row. split; [exact Hs|].
    unfold insert_or_ignore at 1.
    destruct (constraints_ok row) eqn:Hc; cbn [andb]; [|reflexivity].
    assert (Hx : existsb (same_key row) (insert_or_ignore t row) = true).
    { eapply run_statement_has with (p := InsertOrIgnore); try eassumption.
      reflexivity. }
    now rewrite (existsb_app_l _ _ added Hx).
Qed.

Lemma ignore_without_effect flt batch t :
  (forall params, In params batch ->
     exists row, stored cv params = inr row /\ insert_or_ignore t row = t) ->
  forall k, fst (executemany_from cv InsertOrIgnore flt k t batch) = t.
Proof.
  induction batch as [|params0 rest IH]; intros H k; cbn [executemany_from];
    [reflexivity|].
  destruct (H params0 (or_introl eq_refl)) as (row & Hs & Hr).
  unfold execute. rewrite Hs. cbn [bind run_statement ret].
  destruct (stmt_fails flt k); [reflexivity|].
  rewrite Hr. apply IH. intros params Hin. apply H. now right.
Qed.

Lemma find_app_some {A} (f : A -> bool) l l' x :
  find f l = Some x -> find f (l ++ l') = Some x.
Proof.
  induction l as [|y l IH]; cbn [find app]; [discriminate|].
  destruct (f y); [trivial|exact IH].
Qed.

Lemma ignore_twice flt flt' db a db1 rep :
  apply_batch cv InsertOrIgnore flt db a = (db1, inr rep) ->
  fst (apply_batch cv InsertOrIgnore flt' db1 a) = db1
  /\ exists added, db1 = db ++ added.
Proof.
  intros H1.
  destruct (apply_batch_cases cv InsertOrIgnore flt db a)
    as [[He E]|[[e E]|(t & u & Hx & E)]]; rewrite E in H1.
  - injection H1 as <- <-. split; [|exists []; now rewrite app_nil_r].
    unfold apply_batch, store_batch. now rewrite He.
  - discriminate.
  - injection H1 as -> <-.
    destruct (ignore_settles _ _ _ _ _ _ Hx) as (Hadd & Hnoop).
    split; [|exact Hadd].
    destruct (apply_batch_cases cv InsertOrIgnore flt' db1 a)
      as [[_ ->]|[[e ->]|(t' & u' & Hx' & ->)]]; cbn [fst]; try reflexivity.
    pose proof (ignore_without_effect flt' _ _ Hnoop 0%nat) as Hf.
    now rewrite Hx' in Hf.
Qed.

End Ignore.

(** C3. Insert-or-ignore is idempotent: applying a batch again to the
    database the first application left gives that database again; once a
    batch has been committed, no later application of it changes anything,
    the rows that were there are kept first, and the row found under a key
    that was present before is the one that was there. *)
Theorem insert_or_ignore_idempotent cv flt db a :
  fst (apply_batch cv InsertOrIgnore flt
         (fst (apply_batch cv InsertOrIgnore flt db a)) a)
  = fst (apply_batch cv InsertOrIgnore flt db a)
  /\ forall db1 rep,
       apply_batch cv InsertOrIgnore flt db a = (db1, inr rep) ->
       (forall flt', fst (apply_batch cv InsertOrIgnore flt' db1 a) = db1)
       /\ (exists added, db1 = db ++ added)
       /\ forall row old, lookup db row = Some old -> lookup db1 row = Some old.
Proof.
  split.
  - destruct (apply_batch cv InsertOrIgnore flt db a) as [db1 [e|rep]] eqn:E.
    + destruct (apply_batch_cases cv InsertOrIgnore flt db a)
        as [[_ E']|[[e' E']|(t & u & _ & E')]]; rewrite E' in E;
        try discriminate.
      injection E as <- <-. cbn [fst]. now rewrite E'.
    + cbn [fst]. now destruct (ignore_twice cv flt flt db a db1 rep E).
  - intros db1 rep E. split; [|split].
    + intros flt'. now destruct (ignore_twice cv flt flt' db a db1 rep E).
    + now destruct (ignore_twice cv flt flt db a db1 rep E).
    + destruct (ignore_twice cv flt flt db a db1 rep E) as (_ & added & ->).
      intros row old. apply find_app_some.
Qed.

(** ** Upsert *)

Section UpsertFacts.

Variable cv : conversions.

Lemma upsert_lookup_self r : forall t old,
  lookup t r = Some old ->
  lookup (insert_or_update t r) r = Some (do_update old r).
Proof.
  unfold lookup.
  induction t as [|x t IH]; cbn [find insert_or_update]; [discriminate|].
  intros old. destruct (same_key r x) eqn:E.
  - intros H. injection H as <-. cbn [find].
    now rewrite same_key_do_update, E.
  - intros H. cbn [find]. rewrite E. now apply IH.
Qed.

Lemma upsert_lookup_key r row : forall t old,
  lookup t row = Some old ->
  exists old', lookup (insert_or_update t r) row = Some old'
               /\ icao24 old' = icao24 old
               /\ last_contact old' = last_contact old.
Proof.
  unfold lookup.
  induction t as [|x t IH]; cbn [find insert_or_update]; [discriminate|].
  intros old H. destruct (same_key r x) eqn:E; cbn [find].
  - rewrite same_key_do_update. destruct (same_key row x).
    + injection H as <-. eexists. split; [reflexivity|]. now split.
    + now exists old.
  - destruct (same_key row x).
    + now exists old.
    + now apply IH.
Qed.

Lemma upsert_lookup_other r row : forall t x,
  same_key r row = false ->
  lookup t row = Some x ->
  lookup (insert_or_update t r) row = Some x.
Proof.
  unfold lookup. intros t x Hd.
  induction t as [|y t IH]; cbn [find insert_or_update]; [discriminate|].
  destruct (same_key r y) eqn:E; cbn [find].
  - rewrite same_key_do_update. destruct (same_key row y) eqn:E'; [|trivial].
    rewrite same_key_sym in E'.
    now rewrite (same_key_trans _ _ _ E E') in Hd.
  - destruct (same_key row y); [trivial|exact IH].
Qed.

Lemma run_all_lookup_key batch row : forall t t' old,
  run_all cv Upsert t batch = inr t' ->
  lookup t row = Some old ->
  exists old', lookup t' row = Some old'
               /\ icao24 old' = icao24 old
               /\ last_contact old' = last_contact old.
Proof.
  induction batch as [|params rest IH]; intros t t' old; cbn [run_all ret].
  - intros H Hl. injection H as <-. now exists old.
  - destruct (stored cv params) as [e|r]; cbn [bind]; [discriminate|].
    cbn [run_statement].
    destruct (constraints_ok r); cbn [bind ret]; [|discriminate].
    intros H Hl.
    destruct (upsert_lookup_key r row _ _ Hl) as (old1 & Hl1 & <- & <-).
    eapply IH; eassumption.
Qed.

Lemma run_all_lookup_other batch row x : forall t t',
  (forall r' row', In r' batch -> stored cv r' = inr row' ->
                   same_key row' row = false) ->
  run_all cv Upsert t batch = inr t' ->
  lookup t row = Some x ->
  lookup t' row = Some x.
Proof.
  induction batch as [|params rest IH]; intros t t' Hd; cbn [run_all ret].
  - intros H Hl. now injection H as <-.
  - destruct (stored cv params) as [e|r] eqn:Es; cbn [bind]; [discriminate|].
    cbn [run_statement].
    destruct (constraints_ok r); cbn [bind ret]; [|discriminate].
    intros H Hl. eapply IH; [|exact H|].
    + intros r' row' Hin. apply Hd. now right.
    + apply upsert_lookup_other; [|exact Hl].
      apply (Hd params r (or_introl eq_refl) Es).
Qed.

End UpsertFacts.

(** C2. Under insert-or-update, when a committed batch holds a record whose
    key is already in the table, the statement executed for that record
    leaves, under that key, the stored row with its two key columns and with
    every other column (callsign, origin_country, time_position, longitude,
    latitude, baro_altitude, on_ground, velocity, true_track, vertical_rate,
    sensors, geo_altitude, squawk, spi, position_source, fetch_time) taken
    from the record; that row is the one found after the commit unless a
    later record of the batch has the same key. *)
Theorem upsert_overwrites_non_key_attributes
    cv flt db a pre r post row old db' rep :
  apply_batch cv Upsert flt db a = (db', inr rep) ->
  records_to_insert a = pre ++ r :: post ->
  stored cv r = inr row ->
  lookup db row = Some old ->
  exists t1 t2 new,
    run_all cv Upsert db pre = inr t1
    /\ run_statement Upsert t1 row = inr t2
    /\ run_all cv Upsert t2 post = inr db'
    /\ lookup t2 row = Some new
    /\ icao24 new = icao24 old
    /\ last_contact new = last_contact old
    /\ agree_off_key new row
    /\ ((forall r' row', In r' post -> stored cv r' = inr row' ->
                         same_key row' row = false) ->
        lookup db' row = Some new).
Proof.
  intros Ha Hb Hs Hl.
  destruct (apply_batch_cases cv Upsert flt db a)
    as [[He E]|[[e E]|(t & u & Hx & E)]]; rewrite E in Ha.
  { rewrite Hb in He. now destruct pre. }
  { discriminate. }
  injection Ha as -> <-.
  apply executemany_run_all in Hx. rewrite Hb, run_all_app in Hx.
  destruct (run_all cv Upsert db pre) as [e|t1] eqn:E1; cbn [bind] in Hx;
    [discriminate|].
  cbn [run_all] in Hx. rewrite Hs in Hx. cbn [bind] in Hx.
  destruct (run_statement Upsert t1 row) as [e|t2] eqn:E2; cbn [bind] in Hx;
    [discriminate|].
  destruct (run_all_lookup_key cv pre row _ _ _ E1 Hl) as (old1 & Hl1 & Hi & Hc).
  assert (Hl2 : lookup t2 row = Some (do_update old1 row)).
  { cbn [run_statement] in E2. destruct (constraints_ok row); [|discriminate].
    injection E2 as <-. now apply upsert_lookup_self. }
  exists t1, t2, (do_update old1 row).
  repeat (split; [first [reflexivity | assumption]|]).
  split; [unfold agree_off_key; cbn; repeat split|].
  intros Hd. eapply run_all_lookup_other; eassumption.
Qed.

(** ** The check on position_source *)

Section PositionSource.

Variable cv : conversions.

Lemma constraints_ok_position_source r z :
  position_source r = SInt z -> ~ In z [0; 1; 2] -> constraints_ok r = false.
Proof.
  intros Hp Hz. unfold constraints_ok. rewrite Hp.
  assert (E : check_in (SInt z) [0; 1; 2] = false).
  { cbn [check_in existsb]. cbn [In] in Hz.
    destruct (z =? 0) eqn:E0; [apply Z.eqb_eq in E0; subst; tauto|].
    destruct (z =? 1) eqn:E1; [apply Z.eqb_eq in E1; subst; tauto|].
    destruct (z =? 2) eqn:E2; [apply Z.eqb_eq in E2; subst; tauto|].
    reflexivity. }
  rewrite E. now rewrite andb_false_r.
Qed.

(** An integer outside {0, 1, 2} in position_source stops the statement:
    binding fails, or the row breaks the CHECK of the column. *)
Lemma execute_refuses_position_source flt k t r z :
  position_source r = PInt z -> ~ In z [0; 1; 2] ->
  exists e, execute cv Upsert flt k t r = inl e.
Proof.
  intros Hp Hz. unfold execute.
  destruct (stored cv r) as [e|row] eqn:Es; cbn [bind]; [now exists e|].
  destruct (stmt_fails flt k); [now exists DbError|].
  destruct (stored_cells _ _ _ Es) as (cells & Hb & ->).
  destruct (bind_parameters_cells _ _ Hb) as (_ & _ & H16).
  rewrite Hp in H16. cbn [bind_param] in H16.
  destruct (int64 z); [|discriminate]. injection H16 as H16.
  cbn [run_statement].
  rewrite (constraints_ok_position_source _ z); [now exists DbError| |exact Hz].
  cbn [tuple_map2 position_source column_affinity]. now rewrite <- H16.
Qed.

Lemma executemany_refuses_position_source flt r z batch : forall k t,
  In r batch ->
  position_source r = PInt z -> ~ In z [0; 1; 2] ->
  exists t' e, executemany_from cv Upsert flt k t batch = (t', inl e).
Proof.
  induction batch as [|params rest IH]; intros k t Hin Hp Hz; [contradiction|].
  cbn [executemany_from].
  destruct Hin as [->|Hin].
  - destruct (execute_refuses_position_source flt k t r z Hp Hz) as (e & ->).
    now exists t, e.
  - destruct (execute cv Upsert flt k t params) as [e|t1].
    + now exists t, e.
    + now apply IH.
Qed.

Lemma apply_refuses_position_source flt db a r z :
  In r (records_to_insert a) ->
  position_source r = PInt z -> ~ In z [0; 1; 2] ->
  exists e, apply_batch cv Upsert flt db a = (db, inl e).
Proof.
  intros Hin Hp Hz.
  destruct (apply_batch_cases cv Upsert flt db a)
    as [[He _]|[[e E]|(t & u & Hx & _)]].
  - rewrite He in Hin. contradiction.
  - now exists e.
  - destruct (executemany_refuses_position_source flt r z _ 0%nat db Hin Hp Hz)
      as (t' & e & E).
    rewrite E in Hx. discriminate.
Qed.

End PositionSource.

(** C10, as the code has it.  The normalizer never looks at
    position_source: an observation that passes the validations of length,
    identity, last_contact, longitude, latitude, true_track, on_ground and
    spi, and whose callsign is falsy or a string and whose squawk is absent
    or a string, is accepted with position_source as received; and an
    observation that is accepted stays accepted, the record otherwise the
    same, whatever is put in position_source.  Only the table checks the
    column: under insert-or-update, a batch that holds a record whose
    position_source is an integer outside {0, 1, 2} is refused as a whole,
    and the database stays as it was. *)
Theorem position_source_unchecked cv fields now :
  (passes_validations fields ->
   callsign_usable (field fields 1) ->
   squawk_usable (field fields 14) ->
   exists r, normalize (PList fields) now = inr (Accepted r)
             /\ position_source r = field fields 16)
  /\ (forall r v,
        normalize (PList fields) now = inr (Accepted r) ->
        normalize (PList (set_field fields 16 v)) now
        = inr (Accepted (with_position_source r v)))
  /\ (forall r z,
        position_source r = PInt z -> ~ In z [0; 1; 2] ->
        forall flt db a, In r (records_to_insert a) ->
          exists e, apply_batch cv Upsert flt db a = (db, inl e)).
Proof.
  split; [|split].
  - intros Hv Hcs Hsq. exists (canonical fields now).
    split; [now apply accepted_record|reflexivity].
  - intros r v Hr.
    destruct (accepted_inv _ _ _ Hr) as (Hv & Hcs & Hsq & ->).
    pose proof (pv_length _ Hv) as Hl.
    apply (passes_validations_set _ 16%nat v) in Hv; [|now right].
    fields17 fields Hl. cbn [set_field] in *.
    now rewrite accepted_record.
  - intros r z Hp Hz flt db a Hin.
    eapply apply_refuses_position_source; eassumption.
Qed.

Lemma position_source_unchecked_witness :
  let fields := set_field scenario 16 (PInt 7) in
  passes_validations fields
  /\ (exists r, normalize (PList fields) "T" = inr (Accepted r)
                /\ position_source r = PInt 7)
  /\ normalize (PList scenario) "T" = inr (Accepted (canonical scenario "T"))
  /\ normalize (PList fields) "T"
     = inr (Accepted (with_position_source (canonical scenario "T") (PInt 7)))
  /\ exists e,
       apply_batch sample_conversions Upsert no_faults sample_db
         (mkAcc [canonical scenario "T";
                 with_position_source (canonical scenario "T") (PInt 7)] 0)
       = (sample_db, inl e).
Proof.
  cbv zeta.
  destruct (position_source_unchecked sample_conversions scenario "T")
    as (_ & Hfree & Hstore).
  destruct (position_source_unchecked sample_conversions
              (set_field scenario 16 (PInt 7)) "T") as (Haccept & _).
  assert (Hv : passes_validations (set_field scenario 16 (PInt 7)))
    by apply (scenario_passes (PStr "UAL123  ") (PStr "1200") (PInt 7)).
  split; [exact Hv|].
  split.
  { apply Haccept; [exact Hv| |].
    - right. eexists. reflexivity.
    - right. eexists. reflexivity. }
  split; [reflexivity|].
  split; [apply Hfree; reflexivity|].
  apply (Hstore (with_position_source (canonical scenario "T") (PInt 7)) 7).
  - reflexivity.
  - cbn. intros [H|[H|[H|[]]]]; discriminate.
  - cbn. now right; left.
Defined.

(** * Facts about the fetcher and the cycles *)

Lemma retry_from_exhausted net : forall remaining attempt waits,
  (forall k, (attempt <= k < attempt + remaining)%nat ->
             net k = RequestException) ->
  retry_from net attempt remaining waits
  = (PNone, waits ++ backoff_waits attempt remaining).
Proof.
  induction remaining as [|n IH]; intros attempt waits H; cbn [retry_from].
  - unfold backoff_waits. cbn. now rewrite app_nil_r.
  - rewrite (H attempt) by lia. rewrite IH by (intros k Hk; apply H; lia).
    unfold backoff_waits. cbn [seq map]. now rewrite <- app_assoc.
Qed.

Lemma retry_from_success net N body : forall remaining attempt waits,
  (attempt <= N < attempt + remaining)%nat ->
  (forall k, (attempt <= k < N)%nat -> net k = RequestException) ->
  net N = HttpOk body ->
  retry_from net attempt remaining waits
  = (body, waits ++ backoff_waits attempt (N - attempt)).
Proof.
  induction remaining as [|n IH]; intros attempt waits Hr Hf Hs; [lia|].
  cbn [retry_from].
  destruct (Nat.eq_dec attempt N) as [->|Hne].
  - rewrite Hs, Nat.sub_diag. unfold backoff_waits. cbn. now rewrite app_nil_r.
  - rewrite (Hf attempt) by lia.
    rewrite IH by (try lia; try assumption; intros k Hk; apply Hf; lia).
    replace (N - attempt)%nat with (S (N - S attempt)) by lia.
    unfold backoff_waits. cbn [seq map]. now rewrite <- app_assoc.
Qed.

(** C5. If the requests 1 to N-1 fail and request N succeeds, with N at
    most MAX_RETRIES, the fetcher returns the body of request N after the
    waits 2^1, ..., 2^(N-1), and the cycle is the processing of that body;
    if all MAX_RETRIES requests fail, the fetcher returns [None] after the
    waits 2, 4, 8, 16, 32 and raises nothing, and the cycle leaves the
    database as it was. *)
Theorem retry_then_process_or_skip cv net flt now db :
  (forall N body,
     (1 <= N <= MAX_RETRIES)%nat ->
     (forall k, (1 <= k < N)%nat -> net k = RequestException) ->
     net N = HttpOk body ->
     fetch_data_with_retries net = (body, backoff_waits 1 (N - 1))
     /\ fetch_and_upsert_data cv net flt now db
        = if truthy body
          then let (c, r) := process cv Upsert flt now (connect db) body in
               (close c, except_sqlite_error r)
          else (db, inr FetchSkipped))
  /\ ((forall k, (1 <= k <= MAX_RETRIES)%nat -> net k = RequestException) ->
      fetch_data_with_retries net = (PNone, [2; 4; 8; 16; 32])
      /\ fetch_and_upsert_data cv net flt now db = (db, inr FetchSkipped)).
Proof.
  split.
  - intros N body HN Hf Hs.
    assert (E : fetch_data_with_retries net = (body, backoff_waits 1 (N - 1))).
    { unfold fetch_data_with_retries.
      rewrite (retry_from_success net N body) by (try assumption; lia).
      reflexivity. }
    split; [exact E|]. unfold fetch_and_upsert_data. now rewrite E.
  - intros Hf.
    assert (E : fetch_data_with_retries net = (PNone, [2; 4; 8; 16; 32])).
    { unfold fetch_data_with_retries.
      rewrite retry_from_exhausted by (intros k Hk; apply Hf; lia).
      reflexivity. }
    split; [exact E|]. unfold fetch_and_upsert_data. now rewrite E.
Qed.

Lemma retry_then_process_or_skip_witness :
  let body := PDict [("time", PInt 1005); ("states", PList [PList scenario])] in
  let net := fun k => if (k <? 3)%nat then RequestException else HttpOk body in
  (fetch_data_with_retries net = (body, [2; 4])
   /\ exists row,
        fetch_and_upsert_data sample_conversions net no_faults "T" []
        = ([row], inr (Written 1 0)))
  /\ fetch_and_upsert_data sample_conversions (fun _ => RequestException)
       no_faults "T" sample_db
     = (sample_db, inr FetchSkipped).
Proof.
  cbv zeta. split.
  - destruct (retry_then_process_or_skip sample_conversions
                (fun k => if (k <? 3)%nat then RequestException
                          else HttpOk (PDict [("time", PInt 1005);
                                              ("states", PList [PList scenario])]))
                no_faults "T" []) as [H _].
    destruct (H 3%nat
                (PDict [("time", PInt 1005); ("states", PList [PList scenario])]))
      as [H1 H2].
    + unfold MAX_RETRIES. lia.
    + intros k Hk. destruct k as [|[|[|k]]]; try lia; reflexivity.
    + reflexivity.
    + split; [exact H1|]. rewrite H2. eexists. vm_compute. reflexivity.
  - destruct (retry_then_process_or_skip sample_conversions
                (fun _ => RequestException) no_faults "T" sample_db) as [_ H].
    apply H. reflexivity.
Defined.

(** * Facts about the schedulers *)


(** That sleep is shorter than the interval as soon as the cycle took
    time. *)
Lemma max0_rest_below_interval (duration : Q) :
  (0 < duration)%Q ->
  (max0 (inject_Z FETCH_INTERVAL_SECONDS - duration)
   < inject_Z FETCH_INTERVAL_SECONDS)%Q.
Proof.
  intros H. unfold max0, Qltb, FETCH_INTERVAL_SECONDS.
  destruct (Qle_bool _ _) eqn:E; cbn [negb].
  - reflexivity.
  - change (inject_Z 600) with 600%Q. lra.
Qed.


(** C8 on the twenty-four hour job: a cycle that took 5 seconds is followed
    by a sleep of 600 seconds, where max(0, 600 - 5) is 595; on the six
    hour job the same cycle is followed by a sleep of 595 seconds. *)
Theorem loop_24h_ignores_cycle_cost :
  let e := mkEnv (fun _ => HttpOk (PDict [("states", PList [PList scenario])]))
                 no_faults "T" 5%Q in
  snd (main_24h sample_conversions 0%Q [] [e]) = [(5%Q, 600%Q)]
  /\ snd (main_6h sample_conversions 0%Q [] [e]) = [(5%Q, 595%Q)]
  /\ ~ (600 == max0 (600 - 5))%Q.
Proof.
  cbv zeta. split; [vm_compute; reflexivity|].
  split; [vm_compute; reflexivity|].
  vm_compute. discriminate.
Qed.

(** * The cycles as a whole *)



(** A record with position_source 7 next to a good one: the upsert cycle
    logs a database error and writes neither; the insert-or-ignore cycle
    writes the good one and skips the other without a word. *)
Lemma position_source_in_a_cycle :
  let body :=
    PDict [("states",
            PList [PList scenario;
                   PList (set_field (set_field scenario 0 (PStr "DEF456")) 16
                            (PInt 7))])] in
  fetch_and_upsert_data sample_conversions (fun _ => HttpOk body) no_faults
    "T" []
  = ([], inr DatabaseError)
  /\ exists row,
       fetch_and_append_data sample_conversions (HttpOk body) no_faults "T" []
       = ([row], inr (Written 2 0))
       /\ icao24 row = SText "ABC123".
Proof.
  cbv zeta. split; [vm_compute; reflexivity|].
  eexists. split; vm_compute; reflexivity.
Qed.

(** * Instances *)

Lemma upsert_overwrites_non_key_attributes_witness :
  let update := canonical (set_field scenario 1 (PStr " dal456")) "T1" in
  exists row old new,
    stored sample_conversions update = inr row
    /\ lookup sample_db row = Some old
    /\ callsign old = SText "UAL123" /\ fetch_time old = SText "T0"
    /\ lookup (fst (apply_batch sample_conversions Upsert no_faults sample_db
                      (mkAcc [update] 0))) row = Some new
    /\ agree_off_key new row
    /\ callsign new = SText "DAL456" /\ fetch_time new = SText "T1".
Proof.
  cbv zeta.
  set (update := canonical (set_field scenario 1 (PStr " dal456")) "T1").
  destruct (stored sample_conversions update) as [e|row] eqn:Es;
    [vm_compute in Es; discriminate|].
  destruct (lookup sample_db row) as [old|] eqn:El;
    [|vm_compute in Es; injection Es as <-; vm_compute in El; discriminate].
  destruct (apply_batch sample_conversions Upsert no_faults sample_db
              (mkAcc [update] 0)) as [db' [e|rep]] eqn:Ea;
    [vm_compute in Ea; discriminate|].
  destruct (upsert_overwrites_non_key_attributes sample_conversions no_faults
              sample_db (mkAcc [update] 0) [] update [] row old db' rep
              Ea eq_refl Es El)
    as (t1 & t2 & new & _ & _ & _ & _ & _ & _ & Hagree & Hfinal).
  exists row, old, new.
  assert (Hn : lookup db' row = Some new)
    by (apply Hfinal; intros r' row' []).
  clear Hagree Hfinal.
  vm_compute in Es. injection Es as <-.
  vm_compute in El. injection El as <-.
  vm_compute in Ea. injection Ea as <- <-.
  vm_compute in Hn. injection Hn as <-.
  repeat split; vm_compute; reflexivity.
Defined.

Lemma insert_or_ignore_idempotent_witness :
  let a := mkAcc [canonical scenario "T1";
                  canonical (set_field scenario 0 (PStr "DEF456")) "T1"] 0 in
  exists db1,
    apply_batch sample_conversions InsertOrIgnore no_faults sample_db a
    = (db1, inr (Written 2 0))
    /\ fst (apply_batch sample_conversions InsertOrIgnore no_faults db1 a) = db1
    /\ map fetch_time db1 = [SText "T0"; SText "T1"].
Proof.
  cbv zeta.
  set (a := mkAcc [canonical scenario "T1";
                   canonical (set_field scenario 0 (PStr "DEF456")) "T1"] 0).
  destruct (apply_batch sample_conversions InsertOrIgnore no_faults sample_db a)
    as [db1 [e|rep]] eqn:Ea; [vm_compute in Ea; discriminate|].
  destruct (insert_or_ignore_idempotent sample_conversions no_faults sample_db a)
    as [_ H].
  destruct (H db1 rep Ea) as (Hagain & _ & _).
  specialize (Hagain no_faults).
  exists db1. split.
  - vm_compute in Ea. injection Ea as <- <-. reflexivity.
  - split; [exact Hagain|].
    vm_compute in Ea. injection Ea as <- <-. reflexivity.
Defined.

(** * Further facts about the normalizer *)

(** ** [strip] and [upper] *)

Lemma rstrip_cons c s :
  rstrip (String c s)
  = match rstrip s with
    | EmptyString => if isspace c then EmptyString else String c EmptyString
    | t => String c t
    end.
Proof. reflexivity. Qed.

Lemma rstrip_idempotent s : rstrip (rstrip s) = rstrip s.
Proof.
  induction s as [|c s IH]; [reflexivity|].
  rewrite rstrip_cons. destruct (rstrip s) as [|d t] eqn:E.
  - destruct (isspace c) eqn:Ec; [reflexivity|].
    cbn [rstrip]. now rewrite Ec.
  - rewrite rstrip_cons, IH. reflexivity.
Qed.

Lemma lstrip_head s :
  lstrip s = EmptyString
  \/ exists c t, lstrip s = String c t /\ isspace c = false.
Proof.
  induction s as [|c s IH]; [now left|].
  cbn [lstrip]. destruct (isspace c) eqn:E; [exact IH|].
  right. now exists c, s.
Qed.

Lemma lstrip_rstrip_head c t :
  isspace c = false -> lstrip (rstrip (String c t)) = rstrip (String c t).
Proof.
  intros H. rewrite rstrip_cons.
  destruct (rstrip t); [rewrite H|]; cbn [lstrip]; now rewrite H.
Qed.

Lemma strip_idempotent s : strip (strip s) = strip s.
Proof.
  unfold strip.
  destruct (lstrip_head s) as [->|(c & t & -> & Hc)]; [reflexivity|].
  rewrite lstrip_rstrip_head by assumption. apply rstrip_idempotent.
Qed.

Lemma isspace_upper_char c : isspace (upper_char c) = isspace c.
Proof.
  destruct c as [[|] [|] [|] [|] [|] [|] [|] [|]]; reflexivity.
Qed.

Lemma upper_char_idempotent c : upper_char (upper_char c) = upper_char c.
Proof.
  destruct c as [[|] [|] [|] [|] [|] [|] [|] [|]]; reflexivity.
Qed.

Lemma upper_idempotent s : upper (upper s) = upper s.
Proof.
  induction s as [|c s IH]; [reflexivity|].
  cbn [upper]. now rewrite upper_char_idempotent, IH.
Qed.

Lemma lstrip_upper s : lstrip (upper s) = upper (lstrip s).
Proof.
  induction s as [|c s IH]; [reflexivity|].
  cbn [upper lstrip]. rewrite isspace_upper_char.
  destruct (isspace c); [exact IH|reflexivity].
Qed.

Lemma rstrip_upper s : rstrip (upper s) = upper (rstrip s).
Proof.
  induction s as [|c s IH]; [reflexivity|].
  cbn [upper]. rewrite !rstrip_cons, IH, isspace_upper_char.
  destruct (rstrip s); cbn [upper]; [|reflexivity].
  now destruct (isspace c).
Qed.

Lemma strip_upper s : strip (upper s) = upper (strip s).
Proof. unfold strip. now rewrite lstrip_upper, rstrip_upper. Qed.

(** ** What the sink receives *)

Lemma canonical_callsign_shape v :
  canonical_callsign v = PNone
  \/ exists s, canonical_callsign v = PStr s /\ strip s = s /\ upper s = s.
Proof.
  destruct v; try (now left). cbn [canonical_callsign].
  destruct (truthy (PStr s)); [|now left].
  right. eexists. split; [reflexivity|]. split.
  - now rewrite strip_upper, strip_idempotent.
  - apply upper_idempotent.
Qed.

Lemma canonical_squawk_shape v :
  canonical_squawk v = PNone
  \/ exists s, canonical_squawk v = PStr s
               /\ String.length s = 4%nat /\ strip s = s.
Proof.
  destruct v; try (now left). cbn [canonical_squawk].
  destruct (String.length (strip s) =? 4)%nat eqn:E; [|now left].
  right. eexists. split; [reflexivity|]. split.
  - now apply Nat.eqb_eq.
  - apply strip_idempotent.
Qed.

(** The [try] block on any state, whatever its type. *)
Lemma try_block_keep_ready state now r :
  try_block state now = inr (Keep r) -> sink_ready now r.
Proof.
  unfold try_block.
  repeat match goal with
         | |- context [bind (getitem state ?i) _] =>
             destruct (getitem state i) as [?e|?v]; cbn [bind];
             [discriminate|]
         | |- context [bind (if truthy ?x then ?m else ?n) _] =>
             let E := fresh "Ecs" in
             destruct (if truthy x then m else n) as [?e|?cs] eqn:E;
             cbn [bind]; [discriminate|];
             destruct (callsign_extract_inv _ _ E) as [_ ->]
         end.
  match goal with
  | |- context [negb (truthy ?x) || negb (isinstance_int ?y)] =>
      destruct (truthy x) eqn:E0; cbn [negb orb]; [|discriminate];
      destruct (isinstance_int y) eqn:E4; cbn [negb]; [|discriminate]
  end.
  repeat match goal with
         | |- context [bind (out_of_range ?lo ?x ?hi) _] =>
             let E := fresh "Erange" in
             destruct (out_of_range lo x hi) as [?e|[|]] eqn:E;
             cbn [bind ret]; try discriminate;
             apply out_of_range_false in E
         end.
  match goal with
  | |- context [negb (in_0_1 ?x) || negb (in_0_1 ?y)] =>
      destruct (in_0_1 x) eqn:E8; cbn [negb orb]; [|discriminate];
      destruct (in_0_1 y) eqn:E15; cbn [negb]; [|discriminate]
  end.
  match goal with
  | |- context [bind (clean_squawk ?x) _] =>
      let E := fresh "Esq" in
      destruct (clean_squawk x) as [?e|?sq] eqn:E; cbn [bind ret];
      [discriminate|];
      destruct (clean_squawk_inv _ _ E) as [_ ->]
  end.
  intros H. injection H as <-.
  constructor; cbn; try assumption.
  - apply canonical_callsign_shape.
  - apply canonical_squawk_shape.
  - reflexivity.
Qed.

Lemma normalize_accepted_ready state now r :
  normalize state now = inr (Accepted r) -> sink_ready now r.
Proof.
  unfold normalize.
  destruct (py_len state) as [e|n]; cbn [bind]; [discriminate|].
  destruct (17 <=? n)%nat; [|discriminate].
  destruct (try_block state now) as [e|[r'|]] eqn:E; try discriminate.
  intros H. injection H as <-. now apply try_block_keep_ready in E.
Qed.





Lemma loop_filter now (states : list (list pyval)) : forall a,
  loop now a (map PList states)
  = inr (mkAcc
           (records_to_insert a
            ++ map (fun fields => canonical fields now)
                 (filter (is_accepted now) states))
           (skipped a + List.length (filter (is_rejected now) states))).
Proof.
  induction states as [|fields states IH]; intros a; cbn [map loop filter].
  - cbn. rewrite app_nil_r, Nat.add_0_r. now destruct a.
  - unfold step, is_accepted, is_rejected.
    destruct (normalize_list fields now) as (o & E & _).
    rewrite E. cbn [bind ret]. rewrite IH.
    destruct o as [r| |]; cbn [records_to_insert skipped map List.length].
    + destruct (accepted_inv _ _ _ E) as (_ & _ & _ & ->).
      now rewrite <- app_assoc.
    + now rewrite Nat.add_succ_r.
    + reflexivity.
Qed.


(** ** A state without a length *)

Lemma normalize_sized state now :
  sized state = true -> exists o, normalize state now = inr o.
Proof.
  unfold normalize.
  destruct state; try discriminate; intros _; cbn [py_len bind ret];
    match goal with
    | |- context [if ?c then _ else _] => destruct c
    end;
    try (eexists; reflexivity);
    match goal with
    | |- context [try_block ?s now] =>
        destruct (try_block s now) as [e|[r|]]; eexists; reflexivity
    end.
Qed.

Lemma normalize_unsized state now :
  sized state = false -> normalize state now = inl TypeError.
Proof. destruct state; try discriminate; reflexivity. Qed.

Lemma loop_sized now states : forall a,
  (forallb sized states = true -> exists a', loop now a states = inr a')
  /\ (forallb sized states = false -> loop now a states = inl TypeError).
Proof.
  induction states as [|state rest IH]; intros a; cbn [forallb loop].
  - split; [intros _; now exists a|discriminate].
  - unfold step. destruct (sized state) eqn:E; cbn [andb].
    + destruct (normalize_sized state now E) as (o & ->). cbn [bind ret].
      apply IH.
    + rewrite (normalize_unsized state now E). cbn [bind].
      split; [discriminate|reflexivity].
Qed.

(** A state that has no length ([null], a number, a boolean) is met outside
    the [try] block: the loop raises [TypeError] exactly when the batch
    holds one, the exception leaves either cycle with the database as it
    was, and the six hour loop ends there, the cycles that remain not
    run. *)
Theorem unsized_state_ends_the_job cv d states db :
  get_states (PDict d) = inr (PList states) ->
  forallb sized states = false ->
  (forall now, normalize_all now (PList states) = inl TypeError)
  /\ (forall flt now,
        fetch_and_append_data cv (HttpOk (PDict d)) flt now db
        = (db, inl TypeError))
  /\ (forall net flt now,
        fst (fetch_data_with_retries net) = PDict d ->
        fetch_and_upsert_data cv net flt now db = (db, inl TypeError))
  /\ (forall e rest end_time clock,
        env_network e 1%nat = HttpOk (PDict d) ->
        loop_6h cv end_time clock db (e :: rest) = (db, [])).
Proof.
  intros Hg Hs.
  assert (Hn : forall now, normalize_all now (PList states) = inl TypeError).
  { intros now. unfold normalize_all. cbn [py_iter bind ret].
    now apply loop_sized. }
  assert (Ht : truthy (PList states) = true).
  { destruct states; [discriminate|reflexivity]. }
  assert (Hd : truthy (PDict d) = true).
  { destruct d; [|reflexivity]. cbn in Hg. injection Hg as <-. discriminate. }
  assert (Hp : forall p flt now,
             process cv p flt now (connect db) (PDict d)
             = (connect db, inl TypeError)).
  { intros p flt now. unfold process. now rewrite Hg, Ht, Hn. }
  assert (Ha : forall flt now,
             fetch_and_append_data cv (HttpOk (PDict d)) flt now db
             = (db, inl TypeError)).
  { intros flt now. unfold fetch_and_append_data. now rewrite Hp. }
  split; [exact Hn|]. split; [exact Ha|]. split.
  - intros net flt now Hf. unfold fetch_and_upsert_data.
    destruct (fetch_data_with_retries net) as [data w]. cbn [fst] in Hf.
    subst data. now rewrite Hd, Hp.
  - intros e rest end_time clock He. cbn [loop_6h].
    destruct (Qltb clock end_time); [|reflexivity].
    now rewrite He, Ha.
Qed.

Lemma unsized_state_ends_the_job_witness :
  let d := [("time", PInt 1005); ("states", PList [PList scenario; PNone])] in
  fetch_and_append_data sample_conversions (HttpOk (PDict d)) no_faults "T"
    sample_db
  = (sample_db, inl TypeError)
  /\ fetch_and_upsert_data sample_conversions (fun _ => HttpOk (PDict d))
       no_faults "T" sample_db
     = (sample_db, inl TypeError).
Proof.
  cbv zeta.
  destruct (unsized_state_ends_the_job sample_conversions
              [("time", PInt 1005); ("states", PList [PList scenario; PNone])]
              [PList scenario; PNone] sample_db eq_refl eq_refl)
    as (_ & Ha & Hu & _).
  split; [apply Ha|]. apply Hu. reflexivity.
Defined.

(** ** Bodies without states, bodies that are no object *)

(** When the body is an object whose "states" is missing or falsy, both
    cycles return before anything is normalized or written; the upsert
    cycle reports the fetch as skipped when the object is empty. *)
Theorem nothing_under_states cv d db :
  no_states d ->
  (forall flt now,
     fetch_and_append_data cv (HttpOk (PDict d)) flt now db
     = (db, inr NoFlightData))
  /\ (forall net flt now,
        fst (fetch_data_with_retries net) = PDict d ->
        fetch_and_upsert_data cv net flt now db
        = (db, inr (match d with [] => FetchSkipped | _ => NoFlightData end))).
Proof.
  unfold no_states. intros H.
  assert (Hp : forall p flt now,
             process cv p flt now (connect db) (PDict d)
             = (connect db, inr NoFlightData)).
  { intros p flt now. unfold process, get_states. cbn [ret].
    destruct (find _ d) as [kv|]; [now rewrite H|reflexivity]. }
  split.
  - intros flt now. unfold fetch_and_append_data. now rewrite Hp.
  - intros net flt now Hf. unfold fetch_and_upsert_data.
    destruct (fetch_data_with_retries net) as [data w]. cbn [fst] in Hf.
    subst data. destruct d; [reflexivity|]. cbn [truthy]. now rewrite Hp.
Qed.

Lemma nothing_under_states_witness :
  fetch_and_append_data sample_conversions
    (HttpOk (PDict [("time", PInt 1005); ("states", PNone)])) no_faults "T"
    sample_db
  = (sample_db, inr NoFlightData)
  /\ fetch_and_upsert_data sample_conversions
       (fun _ => HttpOk (PDict [("time", PInt 1005)])) no_faults "T" sample_db
     = (sample_db, inr NoFlightData).
Proof.
  split.
  - apply (nothing_under_states sample_conversions
             [("time", PInt 1005); ("states", PNone)] sample_db).
    reflexivity.
  - apply (nothing_under_states sample_conversions [("time", PInt 1005)]
             sample_db).
    + exact I.
    + reflexivity.
Defined.

(** A body that is no object has no [get].  The insert-or-ignore cycle lets
    the [AttributeError] out, for [null] too; the upsert cycle returns at
    [if not data] when the body is falsy and lets the exception out when it
    is truthy.  The database is as it was in every case. *)
Theorem body_that_is_no_object cv body db :
  is_dict body = false ->
  (forall flt now,
     fetch_and_append_data cv (HttpOk body) flt now db
     = (db, inl AttributeError))
  /\ (forall net flt now,
        fst (fetch_data_with_retries net) = body ->
        fetch_and_upsert_data cv net flt now db
        = (db, if truthy body then inl AttributeError else inr FetchSkipped)).
Proof.
  intros H.
  assert (Hp : forall p flt now,
             process cv p flt now (connect db) body
             = (connect db, inl AttributeError)).
  { intros p flt now. unfold process. destruct body; try reflexivity.
    discriminate. }
  split.
  - intros flt now. unfold fetch_and_append_data. now rewrite Hp.
  - intros net flt now Hf. unfold fetch_and_upsert_data.
    destruct (fetch_data_with_retries net) as [data w]. cbn [fst] in Hf.
    subst data. destruct (truthy body); [now rewrite Hp|reflexivity].
Qed.

Lemma body_that_is_no_object_witness :
  fetch_and_append_data sample_conversions (HttpOk PNone) no_faults "T"
    sample_db
  = (sample_db, inl AttributeError)
  /\ fetch_and_upsert_data sample_conversions (fun _ => HttpOk (PList []))
       no_faults "T" sample_db
     = (sample_db, inr FetchSkipped)
  /\ fetch_and_upsert_data sample_conversions
       (fun _ => HttpOk (PList [PList scenario])) no_faults "T" sample_db
     = (sample_db, inl AttributeError).
Proof.
  split; [|split].
  - apply (body_that_is_no_object sample_conversions PNone sample_db).
    reflexivity.
  - apply (proj2 (body_that_is_no_object sample_conversions (PList [])
                    sample_db eq_refl)
             (fun _ => HttpOk (PList [])) no_faults "T").
    reflexivity.
  - apply (proj2 (body_that_is_no_object sample_conversions
                    (PList [PList scenario]) sample_db eq_refl)
             (fun _ => HttpOk (PList [PList scenario])) no_faults "T").
    reflexivity.
Defined.

(** ** The budget of the fetcher *)

Lemma retry_from_budget net : forall remaining attempt waits,
  exists n,
    (n <= remaining)%nat
    /\ snd (retry_from net attempt remaining waits)
       = waits ++ backoff_waits attempt n
    /\ (forall k, (attempt <= k < attempt + n)%nat -> net k = RequestException)
    /\ (if (n <? remaining)%nat
        then net (attempt + n)%nat
             = HttpOk (fst (retry_from net attempt remaining waits))
        else fst (retry_from net attempt remaining waits) = PNone).
Proof.
  induction remaining as [|m IH]; intros attempt waits; cbn [retry_from].
  - exists 0%nat. cbn. rewrite app_nil_r.
    repeat split; solve [lia | intros k Hk; lia].
  - destruct (net attempt) as [body|] eqn:E.
    + exists 0%nat. cbn [fst snd Nat.ltb Nat.leb]. unfold backoff_waits.
      cbn [seq map]. rewrite app_nil_r, Nat.add_0_r.
      repeat split; solve [lia | assumption | intros k Hk; lia].
    + destruct (IH (S attempt)
                  (waits ++ [RETRY_BACKOFF_FACTOR ^ Z.of_nat attempt]))
        as (n & Hn & Hw & Hf & Hr).
      exists (S n). split; [lia|]. split; [|split].
      * rewrite Hw. unfold backoff_waits. cbn [seq map].
        now rewrite <- app_assoc.
      * intros k Hk. destruct (Nat.eq_dec k attempt) as [->|Hne];
          [exact E|apply Hf; lia].
      * replace (attempt + S n)%nat with (S attempt + n)%nat by lia.
        exact Hr.
Qed.

(** Whatever the endpoint does, the fetcher makes at most MAX_RETRIES
    requests, waits 2^k after the k-th failure and 62 seconds at most in
    all, returns the body of the first request that succeeds, and returns
    [None] when the five of them fail.  What the endpoint would answer to a
    sixth request plays no part. *)
Theorem fetch_budget net :
  (exists n,
     (n <= MAX_RETRIES)%nat
     /\ snd (fetch_data_with_retries net) = backoff_waits 1 n
     /\ (forall k, (1 <= k <= n)%nat -> net k = RequestException)
     /\ (if (n <? MAX_RETRIES)%nat
         then net (S n) = HttpOk (fst (fetch_data_with_retries net))
         else fst (fetch_data_with_retries net) = PNone))
  /\ 0 <= total_wait (snd (fetch_data_with_retries net)) <= 62
  /\ forall net',
       (forall k, (1 <= k <= MAX_RETRIES)%nat -> net' k = net k) ->
       fetch_data_with_retries net' = fetch_data_with_retries net.
Proof.
  unfold fetch_data_with_retries.
  destruct (retry_from_budget net MAX_RETRIES 1 []) as (n & Hn & Hw & Hf & Hr).
  cbn [app] in Hw.
  split; [|split].
  - exists n. repeat split; try assumption. intros k Hk. apply Hf. lia.
  - rewrite Hw. unfold MAX_RETRIES in Hn.
    destruct n as [|[|[|[|[|[|n]]]]]]; try lia; vm_compute; split; discriminate.
  - intros net' He. unfold MAX_RETRIES in *.
    cbn [retry_from].
    rewrite !He by lia.
    destruct (net 1%nat); [reflexivity|].
    destruct (net 2%nat); [reflexivity|].
    destruct (net 3%nat); [reflexivity|].
    destruct (net 4%nat); [reflexivity|].
    destruct (net 5%nat); reflexivity.
Qed.

(** * Further facts about the store *)

(** ** The content of the table stays well formed *)

Lemma existsb_same_key_app_one x r t :
  existsb (same_key x) (t ++ [r]) = existsb (same_key x) t || same_key x r.
Proof. rewrite existsb_app. cbn [existsb]. now rewrite orb_false_r. Qed.

Lemma distinct_keys_app_one r : forall t,
  distinct_keys t ->
  existsb (same_key r) t = false ->
  distinct_keys (t ++ [r]).
Proof.
  induction t as [|x t IH]; cbn [distinct_keys app existsb].
  - intros _ _. now split.
  - intros [Hx Ht] Hr. apply orb_false_iff in Hr. destruct Hr as [Hrx Hr].
    split; [|now apply IH].
    rewrite existsb_same_key_app_one, Hx, same_key_sym, Hrx. reflexivity.
Qed.

Lemma existsb_insert_or_update_other x r : forall t,
  existsb (same_key x) t = false ->
  same_key x r = false ->
  existsb (same_key x) (insert_or_update t r) = false.
Proof.
  induction t as [|y t IH]; cbn [insert_or_update existsb].
  - intros _ ->. reflexivity.
  - intros H Hr. apply orb_false_iff in H. destruct H as [Hy Ht].
    destruct (same_key r y); cbn [existsb].
    + now rewrite same_key_do_update, Hy, Ht.
    + now rewrite Hy, IH.
Qed.

Lemma distinct_keys_insert_or_update r : forall t,
  distinct_keys t -> distinct_keys (insert_or_update t r).
Proof.
  induction t as [|y t IH]; cbn [insert_or_update distinct_keys].
  - intros _. now split.
  - intros [Hy Ht]. destruct (same_key r y) eqn:E; cbn [distinct_keys].
    + split; [exact Hy|exact Ht].
    + split; [|now apply IH].
      apply existsb_insert_or_update_other; [exact Hy|].
      now rewrite same_key_sym.
Qed.

Lemma constraints_ok_do_update old excluded :
  constraints_ok old = true ->
  constraints_ok excluded = true ->
  constraints_ok (do_update old excluded) = true.
Proof.
  unfold constraints_ok. cbn. intros Ho He.
  repeat (apply andb_true_iff in Ho; destruct Ho as [Ho ?]).
  repeat (apply andb_true_iff in He; destruct He as [He ?]).
  repeat (apply andb_true_iff; split); assumption.
Qed.

Lemma constraints_insert_or_update r : forall t,
  constraints_ok r = true ->
  Forall (fun x => constraints_ok x = true) t ->
  Forall (fun x => constraints_ok x = true) (insert_or_update t r).
Proof.
  intros t Hr. induction t as [|y t IH]; cbn [insert_or_update]; intros H.
  - now constructor.
  - inversion H as [|? ? Hy Ht]; subst.
    destruct (same_key r y).
    + constructor; [now apply constraints_ok_do_update|exact Ht].
    + constructor; [exact Hy|now apply IH].
Qed.

Lemma run_statement_ok p t r t' :
  run_statement p t r = inr t' -> table_ok t -> table_ok t'.
Proof.
  intros H [Hc Hd]. destruct p; cbn [run_statement ret] in H.
  - injection H as <-. unfold insert_or_ignore.
    destruct (constraints_ok r) eqn:Er; cbn [andb]; [|now split].
    destruct (existsb (same_key r) t) eqn:Ex; cbn [negb]; [now split|].
    split.
    + apply Forall_app. split; [exact Hc|]. now repeat constructor.
    + now apply distinct_keys_app_one.
  - destruct (constraints_ok r) eqn:Er; [|discriminate].
    injection H as <-. split.
    + now apply constraints_insert_or_update.
    + now apply distinct_keys_insert_or_update.
Qed.

Lemma run_all_ok cv p batch : forall t t',
  run_all cv p t batch = inr t' -> table_ok t -> table_ok t'.
Proof.
  induction batch as [|params rest IH]; intros t t'; cbn [run_all ret].
  - intros H. now injection H as <-.
  - destruct (stored cv params) as [e|r]; cbn [bind]; [discriminate|].
    destruct (run_statement p t r) as [e|t1] eqn:E; cbn [bind];
      [discriminate|].
    intros H Ht. eapply IH; [exact H|]. eapply run_statement_ok; eassumption.
Qed.

(** Under either policy, and whatever the engine refuses, a table whose
    rows satisfy the NOT NULL and CHECK constraints and have pairwise
    distinct keys is still such a table after a batch has been applied. *)
Theorem apply_batch_keeps_table_ok cv p flt db a :
  table_ok db -> table_ok (fst (apply_batch cv p flt db a)).
Proof.
  intros H.
  destruct (apply_batch_cases cv p flt db a)
    as [[_ ->]|[[e ->]|(t & u & Hx & ->)]]; cbn [fst]; try assumption.
  apply executemany_run_all in Hx. eapply run_all_ok; eassumption.
Qed.

Lemma table_ok_sample_db : table_ok sample_db.
Proof.
  split.
  - repeat constructor.
  - cbn. now split.
Qed.

Lemma apply_batch_keeps_table_ok_witness :
  let a := mkAcc [canonical scenario "T1";
                  canonical (set_field scenario 0 (PStr "DEF456")) "T1";
                  canonical (set_field scenario 0 (PStr "DEF456")) "T2"] 0 in
  table_ok sample_db
  /\ List.length
       (fst (apply_batch sample_conversions Upsert no_faults sample_db a))
     = 2%nat
  /\ table_ok
       (fst (apply_batch sample_conversions Upsert no_faults sample_db a)).
Proof.
  cbv zeta. split; [exact table_ok_sample_db|]. split; [reflexivity|].
  apply apply_batch_keeps_table_ok. exact table_ok_sample_db.
Defined.

(** ** Nothing is deleted, moved or given another key *)

Lemma insert_or_update_keys r : forall t,
  exists added,
    map key_of (insert_or_update t r) = map key_of t ++ map key_of added
    /\ (List.length added <= 1)%nat
    /\ List.length (insert_or_update t r)
       = (List.length t + List.length added)%nat.
Proof.
  induction t as [|y t IH]; cbn [insert_or_update].
  - exists [r]. cbn. auto.
  - destruct (same_key r y).
    + exists []. cbn. rewrite app_nil_r. auto.
    + destruct IH as (added & Hm & Hl & Hn). exists added. cbn.
      now rewrite Hm, Hn.
Qed.

Lemma run_statement_keys p t r t' :
  run_statement p t r = inr t' ->
  exists added,
    map key_of t' = map key_of t ++ map key_of added
    /\ (List.length added <= 1)%nat
    /\ List.length t' = (List.length t + List.length added)%nat.
Proof.
  destruct p; cbn [run_statement ret].
  - intros H. injection H as <-. unfold insert_or_ignore.
    destruct (_ && _).
    + exists [r]. rewrite map_app, length_app. cbn. auto.
    + exists []. cbn. rewrite app_nil_r. auto.
  - destruct (constraints_ok r); [|discriminate].
    intros H. injection H as <-. apply insert_or_update_keys.
Qed.

Lemma run_all_keys cv p batch : forall t t',
  run_all cv p t batch = inr t' ->
  exists added,
    map key_of t' = map key_of t ++ map key_of added
    /\ (List.length added <= List.length batch)%nat
    /\ List.length t' = (List.length t + List.length added)%nat.
Proof.
  induction batch as [|params rest IH]; intros t t'; cbn [run_all ret].
  - intros H. injection H as <-. exists []. cbn. rewrite app_nil_r. auto.
  - destruct (stored cv params) as [e|r]; cbn [bind]; [discriminate|].
    destruct (run_statement p t r) as [e|t1] eqn:E; cbn [bind];
      [discriminate|].
    intros H. destruct (IH _ _ H) as (added & Hm & Hl & Hn).
    destruct (run_statement_keys _ _ _ _ E) as (added1 & Hm1 & Hl1 & Hn1).
    exists (added1 ++ added). rewrite Hm, Hm1, map_app, length_app, Hn, Hn1.
    rewrite <- app_assoc. cbn [List.length]. repeat split; lia.
Qed.

(** Applying a batch never deletes a row, never moves one and never
    changes a key: the keys of the table after the call are those before
    it, in the same places, followed by at most one new key per record of
    the batch. *)
Theorem apply_batch_only_appends_keys cv p flt db a :
  exists added,
    map key_of (fst (apply_batch cv p flt db a))
    = map key_of db ++ map key_of added
    /\ (List.length added <= List.length (records_to_insert a))%nat
    /\ List.length (fst (apply_batch cv p flt db a))
       = (List.length db + List.length added)%nat.
Proof.
  destruct (apply_batch_cases cv p flt db a)
    as [[_ ->]|[[e ->]|(t & u & Hx & ->)]]; cbn [fst].
  - exists []. cbn. rewrite app_nil_r. repeat split; lia.
  - exists []. cbn. rewrite app_nil_r. repeat split; lia.
  - apply executemany_run_all in Hx. eapply run_all_keys. exact Hx.
Qed.

(** ** Keys the batch does not name *)

Lemma insert_or_update_lookup_frame r probe : forall t,
  same_key r probe = false ->
  lookup (insert_or_update t r) probe = lookup t probe.
Proof.
  unfold lookup. intros t Hd.
  induction t as [|y t IH]; cbn [find insert_or_update].
  - now rewrite same_key_sym, Hd.
  - destruct (same_key r y) eqn:E; cbn [find].
    + rewrite same_key_do_update. destruct (same_key probe y) eqn:E';
        [|reflexivity].
      rewrite same_key_sym in E'.
      now rewrite (same_key_trans _ _ _ E E') in Hd.
    + destruct (same_key probe y); [reflexivity|exact IH].
Qed.

Lemma insert_or_ignore_lookup_frame r probe t :
  same_key r probe = false ->
  lookup (insert_or_ignore t r) probe = lookup t probe.
Proof.
  unfold lookup, insert_or_ignore. intros Hd.
  destruct (_ && _); [|reflexivity].
  induction t as [|y t IH]; cbn [find app].
  - now rewrite same_key_sym, Hd.
  - destruct (same_key probe y); [reflexivity|exact IH].
Qed.

Lemma run_all_lookup_frame cv p batch probe : forall t t',
  (forall r row, In r batch -> stored cv r = inr row ->
                 same_key row probe = false) ->
  run_all cv p t batch = inr t' ->
  lookup t' probe = lookup t probe.
Proof.
  induction batch as [|params rest IH]; intros t t' Hd; cbn [run_all ret].
  - intros H. now injection H as <-.
  - destruct (stored cv params) as [e|r] eqn:Es; cbn [bind]; [discriminate|].
    destruct (run_statement p t r) as [e|t1] eqn:E; cbn [bind];
      [discriminate|].
    intros H. rewrite (IH t1 t'); [| |exact H].
    + pose proof (Hd params r (or_introl eq_refl) Es) as Hr.
      destruct p; cbn [run_statement ret] in E.
      * injection E as <-. now apply insert_or_ignore_lookup_frame.
      * destruct (constraints_ok r); [|discriminate].
        injection E as <-. now apply insert_or_update_lookup_frame.
    + intros r' row' Hin. apply Hd. now right.
Qed.

(** A batch leaves alone every key none of its records has: what is found
    under such a key after the call, a row or nothing, is what was found
    before. *)
Theorem apply_batch_leaves_other_keys cv p flt db a probe :
  (forall r row, In r (records_to_insert a) -> stored cv r = inr row ->
                 same_key row probe = false) ->
  lookup (fst (apply_batch cv p flt db a)) probe = lookup db probe.
Proof.
  intros Hd.
  destruct (apply_batch_cases cv p flt db a)
    as [[_ ->]|[[e ->]|(t & u & Hx & ->)]]; cbn [fst]; try reflexivity.
  apply executemany_run_all in Hx. eapply run_all_lookup_frame; eassumption.
Qed.

Lemma apply_batch_leaves_other_keys_witness :
  let a := mkAcc [canonical (set_field scenario 0 (PStr "DEF456")) "T1"] 0 in
  exists probe old,
    stored sample_conversions (canonical scenario "T9") = inr probe
    /\ lookup sample_db probe = Some old
    /\ fetch_time old = SText "T0"
    /\ lookup (fst (apply_batch sample_conversions Upsert no_faults
                      sample_db a)) probe
       = Some old.
Proof.
  cbv zeta.
  destruct (stored sample_conversions (canonical scenario "T9"))
    as [e|probe] eqn:Es; [vm_compute in Es; discriminate|].
  exists probe.
  assert (Hf :
    lookup (fst (apply_batch sample_conversions Upsert no_faults sample_db
                   (mkAcc [canonical (set_field scenario 0 (PStr "DEF456"))
                             "T1"] 0))) probe
    = lookup sample_db probe).
  { apply apply_batch_leaves_other_keys.
    intros r row [<-|[]] Hr.
    vm_compute in Es. injection Es as <-.
    vm_compute in Hr. injection Hr as <-. reflexivity. }
  rewrite Hf. vm_compute in Es. injection Es as <-.
  eexists. split; [reflexivity|]. split; [vm_compute; reflexivity|].
  split; reflexivity.
Defined.

(** ** Reading what was written *)

Lemma insert_or_update_lookup_self r : forall t,
  same_key r r = true ->
  exists new,
    lookup (insert_or_update t r) r = Some new /\ agree_off_key new r.
Proof.
  unfold lookup. intros t Hr.
  induction t as [|y t IH]; cbn [find insert_or_update].
  - rewrite Hr. exists r. split; [reflexivity|].
    unfold agree_off_key. repeat split.
  - destruct (same_key r y) eqn:E; cbn [find].
    + rewrite same_key_do_update, E. eexists. split; [reflexivity|].
      unfold agree_off_key. cbn. repeat split.
    + rewrite E. exact IH.
Qed.

(** Under insert-or-update, after a committed batch, the row found under
    the key of a record of the batch has, in every column outside the key,
    the values of the last record of the batch with that key, whether the
    key was in the table before or not. *)
Theorem upsert_then_lookup cv flt db a pre r post row db' rep :
  apply_batch cv Upsert flt db a = (db', inr rep) ->
  records_to_insert a = pre ++ r :: post ->
  stored cv r = inr row ->
  (forall r' row', In r' post -> stored cv r' = inr row' ->
                   same_key row' row = false) ->
  exists new, lookup db' row = Some new /\ agree_off_key new row.
Proof.
  intros Ha Hb Hs Hd.
  destruct (apply_batch_cases cv Upsert flt db a)
    as [[He E]|[[e E]|(t & u & Hx & E)]]; rewrite E in Ha.
  { rewrite Hb in He. now destruct pre. }
  { discriminate. }
  injection Ha as -> <-.
  apply executemany_run_all in Hx. rewrite Hb, run_all_app in Hx.
  destruct (run_all cv Upsert db pre) as [e|t1] eqn:E1; cbn [bind] in Hx;
    [discriminate|].
  cbn [run_all] in Hx. rewrite Hs in Hx. cbn [bind run_statement] in Hx.
  destruct (constraints_ok row) eqn:Hc; cbn [bind ret] in Hx; [|discriminate].
  destruct (insert_or_update_lookup_self row t1
              (stored_same_key_refl _ _ _ Hs Hc)) as (new & Hl & Hagree).
  exists new. split; [|exact Hagree].
  rewrite (run_all_lookup_frame cv Upsert post row _ _ Hd Hx). exact Hl.
Qed.

Lemma upsert_then_lookup_witness :
  let first := canonical (set_field scenario 0 (PStr "DEF456")) "T1" in
  let last := canonical (set_field scenario 0 (PStr "DEF456")) "T2" in
  exists db' row new,
    apply_batch sample_conversions Upsert no_faults sample_db
      (mkAcc [first; last] 0)
    = (db', inr (Written 2 0))
    /\ stored sample_conversions last = inr row
    /\ lookup sample_db row = None
    /\ lookup db' row = Some new
    /\ fetch_time new = SText "T2".
Proof.
  cbv zeta.
  set (first := canonical (set_field scenario 0 (PStr "DEF456")) "T1").
  set (last := canonical (set_field scenario 0 (PStr "DEF456")) "T2").
  destruct (apply_batch sample_conversions Upsert no_faults sample_db
              (mkAcc [first; last] 0)) as [db' [e|rep]] eqn:Ea;
    [vm_compute in Ea; discriminate|].
  destruct (stored sample_conversions last) as [e|row] eqn:Es;
    [vm_compute in Es; discriminate|].
  destruct (upsert_then_lookup sample_conversions no_faults sample_db
              (mkAcc [first; last] 0) [first] last [] row db' rep
              Ea eq_refl Es) as (new & Hl & Hagree).
  { intros r' row' []. }
  exists db', row, new.
  assert (Hft : fetch_time new = SText "T2").
  { destruct Hagree as (_ & _ & _ & _ & _ & _ & _ & _ & _ & _ & _ & _ & _
                        & _ & _ & ->).
    vm_compute in Es. injection Es as <-. reflexivity. }
  split.
  { vm_compute in Ea. injection Ea as <- <-. vm_compute. reflexivity. }
  split; [reflexivity|]. split.
  { vm_compute in Es. injection Es as <-. vm_compute. reflexivity. }
  split; assumption.
Defined.

(** *** The first record of a key wins under insert-or-ignore *)

Lemma run_all_ignore_grows cv batch : forall t t',
  run_all cv InsertOrIgnore t batch = inr t' -> exists added, t' = t ++ added.
Proof.
  induction batch as [|params rest IH]; intros t t'; cbn [run_all ret].
  - intros H. injection H as <-. exists []. now rewrite app_nil_r.
  - destruct (stored cv params) as [e|r]; cbn [bind run_statement ret];
      [discriminate|].
    intros H. destruct (IH _ _ H) as (added & ->).
    destruct (insert_or_ignore_grows t r) as (added0 & ->).
    exists (added0 ++ added). now rewrite app_assoc.
Qed.

Lemma lookup_none_existsb t row :
  lookup t row = None <-> existsb (same_key row) t = false.
Proof.
  unfold lookup. induction t as [|y t IH]; cbn [find existsb]; [tauto|].
  destruct (same_key row y); cbn [orb]; [split; discriminate|exact IH].
Qed.

(** Under insert-or-ignore, after a committed batch, a key that was not in
    the table holds the row of the first record of the batch that has it,
    when that row satisfies the constraints of the table; the records of
    the same key that come later change nothing. *)
Theorem ignore_keeps_first_of_batch cv flt db a pre r post row db' rep :
  apply_batch cv InsertOrIgnore flt db a = (db', inr rep) ->
  records_to_insert a = pre ++ r :: post ->
  stored cv r = inr row ->
  constraints_ok row = true ->
  lookup db row = None ->
  (forall r' row', In r' pre -> stored cv r' = inr row' ->
                   same_key row' row = false) ->
  lookup db' row = Some row.
Proof.
  intros Ha Hb Hs Hc Hn Hd.
  destruct (apply_batch_cases cv InsertOrIgnore flt db a)
    as [[He E]|[[e E]|(t & u & Hx & E)]]; rewrite E in Ha.
  { rewrite Hb in He. now destruct pre. }
  { discriminate. }
  injection Ha as -> <-.
  apply executemany_run_all in Hx. rewrite Hb, run_all_app in Hx.
  destruct (run_all cv InsertOrIgnore db pre) as [e|t1] eqn:E1;
    cbn [bind] in Hx; [discriminate|].
  cbn [run_all] in Hx. rewrite Hs in Hx. cbn [bind run_statement ret] in Hx.
  assert (H1 : lookup t1 row = None).
  { rewrite (run_all_lookup_frame cv InsertOrIgnore pre row _ _ Hd E1).
    exact Hn. }
  destruct (run_all_ignore_grows _ _ _ _ Hx) as (added & ->).
  apply find_app_some. unfold insert_or_ignore.
  apply lookup_none_existsb in H1. rewrite Hc, H1. cbn [andb negb].
  unfold lookup in *. clear - H1 Hs Hc.
  pose proof (stored_same_key_refl _ _ _ Hs Hc) as Hk.
  induction t1 as [|y t1 IH]; cbn [find app existsb] in *.
  - now rewrite Hk.
  - apply orb_false_iff in H1. destruct H1 as [-> H1]. now apply IH.
Qed.

Lemma ignore_keeps_first_of_batch_witness :
  let first := canonical (set_field scenario 0 (PStr "DEF456")) "T1" in
  let later := canonical (set_field scenario 0 (PStr "DEF456")) "T2" in
  exists db' row,
    apply_batch sample_conversions InsertOrIgnore no_faults sample_db
      (mkAcc [first; later] 0)
    = (db', inr (Written 2 0))
    /\ stored sample_conversions first = inr row
    /\ lookup db' row = Some row
    /\ fetch_time row = SText "T1".
Proof.
  cbv zeta.
  set (first := canonical (set_field scenario 0 (PStr "DEF456")) "T1").
  set (later := canonical (set_field scenario 0 (PStr "DEF456")) "T2").
  destruct (apply_batch sample_conversions InsertOrIgnore no_faults sample_db
              (mkAcc [first; later] 0)) as [db' [e|rep]] eqn:Ea;
    [vm_compute in Ea; discriminate|].
  destruct (stored sample_conversions first) as [e|row] eqn:Es;
    [vm_compute in Es; discriminate|].
  assert (Hl : lookup db' row = Some row).
  { apply (ignore_keeps_first_of_batch sample_conversions no_faults sample_db
             (mkAcc [first; later] 0) [] first [later] row db' rep Ea
             eq_refl Es).
    - vm_compute in Es. injection Es as <-. reflexivity.
    - vm_compute in Es. injection Es as <-. reflexivity.
    - intros r' row' []. }
  exists db', row. split.
  { vm_compute in Ea. injection Ea as <- <-. vm_compute. reflexivity. }
  split; [reflexivity|]. split; [exact Hl|].
  vm_compute in Es. injection Es as <-. reflexivity.
Defined.

(** ** What insert-or-ignore reports *)

Lemma run_all_executemany cv p batch : forall k t t',
  run_all cv p t batch = inr t' ->
  executemany_from cv p no_faults k t batch = (t', inr tt).
Proof.
  induction batch as [|params rest IH]; intros k t t';
    cbn [run_all executemany_from ret].
  - intros H. now injection H as <-.
  - unfold execute. cbn [stmt_fails no_faults].
    destruct (stored cv params) as [e|r]; cbn [bind]; [discriminate|].
    destruct (run_statement p t r) as [e|t1]; cbn [bind]; [discriminate|].
    apply IH.
Qed.

Lemma apply_batch_of_run_all cv p db a t :
  run_all cv p db (records_to_insert a) = inr t ->
  records_to_insert a <> [] ->
  apply_batch cv p no_faults db a
  = (t, inr (Written (List.length (records_to_insert a)) (skipped a))).
Proof.
  intros H Hne.
  unfold apply_batch, store_batch, executemany, commit, connect, close.
  destruct (records_to_insert a) as [|r0 rest] eqn:Er; [contradiction|].
  cbn [pending durable].
  now rewrite (run_all_executemany cv p (r0 :: rest) 0 db t H).
Qed.

Lemma run_all_ignore_total cv batch : forall t,
  (forall r, In r batch -> exists row, stored cv r = inr row) ->
  exists t', run_all cv InsertOrIgnore t batch = inr t'.
Proof.
  induction batch as [|params rest IH]; intros t H; cbn [run_all ret].
  - now exists t.
  - destruct (H params (or_introl eq_refl)) as (row & ->).
    cbn [bind run_statement ret]. apply IH. intros r Hin. apply H. now right.
Qed.

(** Under insert-or-ignore, when every record can be bound and the engine
    refuses nothing, the call cannot fail, whatever constraints the rows
    break, and the number it reports as inserted is the size of the batch:
    applied a second time it reports the same number and adds no row. *)
Theorem ignore_reports_batch_size cv db a :
  records_to_insert a <> [] ->
  (forall r, In r (records_to_insert a) -> exists row, stored cv r = inr row) ->
  let report := Written (List.length (records_to_insert a)) (skipped a) in
  exists db',
    apply_batch cv InsertOrIgnore no_faults db a = (db', inr report)
    /\ apply_batch cv InsertOrIgnore no_faults db' a = (db', inr report).
Proof.
  intros Hne Hb report.
  destruct (run_all_ignore_total cv _ db Hb) as (db' & H1).
  exists db'.
  assert (E1 : apply_batch cv InsertOrIgnore no_faults db a = (db', inr report))
    by now apply apply_batch_of_run_all.
  split; [exact E1|].
  destruct (run_all_ignore_total cv _ db' Hb) as (db'' & H2).
  rewrite (apply_batch_of_run_all cv InsertOrIgnore db' a db'' H2 Hne).
  destruct (ignore_twice cv no_faults no_faults db a db' report E1) as [Hf _].
  rewrite (apply_batch_of_run_all cv InsertOrIgnore db' a db'' H2 Hne) in Hf.
  cbn [fst] in Hf. now subst db''.
Qed.

Lemma ignore_reports_batch_size_witness :
  let a := mkAcc [canonical scenario "T1";
                  with_position_source (canonical scenario "T1") (PInt 7)] 3 in
  apply_batch sample_conversions InsertOrIgnore no_faults sample_db a
  = (sample_db, inr (Written 2 3)).
Proof.
  cbv zeta.
  destruct (ignore_reports_batch_size sample_conversions sample_db
              (mkAcc [canonical scenario "T1";
                      with_position_source (canonical scenario "T1") (PInt 7)]
                 3)) as (db' & H1 & _).
  - discriminate.
  - intros r [<-|[<-|[]]]; eexists; vm_compute; reflexivity.
  - rewrite H1. vm_compute in H1. injection H1 as <-. reflexivity.
Defined.

(** ** Values that cannot be bound *)

Lemma bind_param_bindable v c : bind_param v = inr c -> unbindable v = false.
Proof.
  destruct v; cbn [bind_param unbindable ret raise]; try reflexivity;
    try discriminate.
  destruct (int64 z); [reflexivity|discriminate].
Qed.

Lemma bind_parameters_bindable r cells :
  bind_parameters r = inr cells ->
  existsb unbindable (cells_of r) = false.
Proof.
  unfold bind_parameters.
  repeat match goal with
         | |- context [bind (bind_param ?v) _] =>
             let E := fresh "Eb" in
             destruct (bind_param v) eqn:E; cbn [bind]; [discriminate|];
             apply bind_param_bindable in E
         end.
  intros _. unfold cells_of. cbn [existsb].
  repeat match goal with H : unbindable _ = false |- _ => rewrite H; clear H end.
  reflexivity.
Qed.

Lemma executemany_stops_at_unbindable cv p flt r batch : forall k t,
  In r batch ->
  existsb unbindable (cells_of r) = true ->
  exists t' e, executemany_from cv p flt k t batch = (t', inl e).
Proof.
  induction batch as [|params rest IH]; intros k t Hin Hu; [contradiction|].
  cbn [executemany_from].
  destruct (execute cv p flt k t params) as [e|t1] eqn:E.
  - now exists t, e.
  - destruct Hin as [->|Hin]; [|now apply IH].
    destruct (execute_inr _ _ _ _ _ _ _ E) as (row & Hs & _).
    destruct (stored_cells _ _ _ Hs) as (cells & Hb & _).
    apply bind_parameters_bindable in Hb. congruence.
Qed.

(** A record that holds, in any of its eighteen fields, a list, an object
    or an integer that does not fit 64 bits cannot be bound: under either
    policy the whole batch that holds it fails, insert-or-ignore included,
    and the database is as it was. *)
Theorem unbindable_value_fails_batch cv p flt db a r :
  In r (records_to_insert a) ->
  existsb unbindable (cells_of r) = true ->
  exists e, apply_batch cv p flt db a = (db, inl e).
Proof.
  intros Hin Hu.
  destruct (apply_batch_cases cv p flt db a)
    as [[He _]|[[e E]|(t & u & Hx & _)]].
  - rewrite He in Hin. contradiction.
  - now exists e.
  - destruct (executemany_stops_at_unbindable cv p flt r _ 0%nat db Hin Hu)
      as (t' & e & E).
    rewrite E in Hx. discriminate.
Qed.

Lemma unbindable_value_fails_batch_witness :
  let body :=
    PDict [("states",
            PList [PList scenario;
                   PList (set_field (set_field scenario 0 (PStr "DEF456")) 12
                            (PList [PInt 1234]))])] in
  (exists e,
     apply_batch sample_conversions InsertOrIgnore no_faults sample_db
       (mkAcc [canonical scenario "T";
               canonical (set_field scenario 12 (PList [PInt 1234])) "T"] 0)
     = (sample_db, inl e))
  /\ fetch_and_append_data sample_conversions (HttpOk body) no_faults "T" []
     = ([], inr DatabaseError)
  /\ fetch_and_upsert_data sample_conversions (fun _ => HttpOk body)
       no_faults "T" []
     = ([], inr DatabaseError).
Proof.
  cbv zeta. split; [|split; vm_compute; reflexivity].
  apply (unbindable_value_fails_batch sample_conversions InsertOrIgnore
           no_faults sample_db _
           (canonical (set_field scenario 12 (PList [PInt 1234])) "T")).
  - cbn. now right; left.
  - reflexivity.
Defined.

(** ** Batches in a row *)

Lemma apply_batch_run_all cv p flt db a db' rep :
  apply_batch cv p flt db a = (db', inr rep) ->
  run_all cv p db (records_to_insert a) = inr db'.
Proof.
  intros H.
  destruct (apply_batch_cases cv p flt db a)
    as [[He E]|[[e E]|(t & u & Hx & E)]]; rewrite E in H.
  - injection H as <- _. now rewrite He.
  - discriminate.
  - injection H as <- _. eapply executemany_run_all. exact Hx.
Qed.

(** Two batches committed one after the other leave the table that the two
    of them leave as a single batch. *)
Theorem batches_compose cv p flt1 flt2 db a1 a2 db1 db2 rep1 rep2 s :
  apply_batch cv p flt1 db a1 = (db1, inr rep1) ->
  apply_batch cv p flt2 db1 a2 = (db2, inr rep2) ->
  fst (apply_batch cv p no_faults db
         (mkAcc (records_to_insert a1 ++ records_to_insert a2) s))
  = db2.
Proof.
  intros H1 H2.
  apply apply_batch_run_all in H1, H2.
  assert (H : run_all cv p db (records_to_insert a1 ++ records_to_insert a2)
              = inr db2).
  { rewrite run_all_app, H1. exact H2. }
  destruct (records_to_insert a1 ++ records_to_insert a2) as [|r0 rest] eqn:E.
  - cbn in H. now injection H as <-.
  - rewrite (apply_batch_of_run_all cv p db (mkAcc (r0 :: rest) s) db2 H);
      [reflexivity|discriminate].
Qed.

Lemma batches_compose_witness :
  let a1 := mkAcc [canonical scenario "T1"] 0 in
  let a2 := mkAcc [canonical (set_field scenario 0 (PStr "DEF456")) "T2";
                   canonical scenario "T3"] 0 in
  exists db1 db2,
    apply_batch sample_conversions Upsert no_faults sample_db a1
    = (db1, inr (Written 1 0))
    /\ apply_batch sample_conversions Upsert no_faults db1 a2
       = (db2, inr (Written 2 0))
    /\ fst (apply_batch sample_conversions Upsert no_faults sample_db
              (mkAcc (records_to_insert a1 ++ records_to_insert a2) 0))
       = db2
    /\ map fetch_time db2 = [SText "T3"; SText "T2"].
Proof.
  cbv zeta.
  set (a1 := mkAcc [canonical scenario "T1"] 0).
  set (a2 := mkAcc [canonical (set_field scenario 0 (PStr "DEF456")) "T2";
                    canonical scenario "T3"] 0).
  destruct (apply_batch sample_conversions Upsert no_faults sample_db a1)
    as [db1 [e|rep1]] eqn:E1; [vm_compute in E1; discriminate|].
  destruct (apply_batch sample_conversions Upsert no_faults db1 a2)
    as [db2 [e|rep2]] eqn:E2.
  { vm_compute in E1. injection E1 as <- <-. vm_compute in E2. discriminate. }
  pose proof (batches_compose sample_conversions Upsert no_faults no_faults
                sample_db a1 a2 db1 db2 rep1 rep2 0%nat E1 E2) as H.
  exists db1, db2.
  vm_compute in E1. injection E1 as <- <-.
  vm_compute in E2. injection E2 as <- <-.
  split; [reflexivity|]. split; [vm_compute; reflexivity|].
  split; [exact H|reflexivity].
Defined.

(** * Further facts about the schedulers *)









(** * Insert-or-update is idempotent too *)

Section UpsertTwice.

Lemma same_key_congruence r r2 y :
  same_key r r2 = true -> same_key r2 y = same_key r y.
Proof.
  intros H. destruct (same_key r y) eqn:E.
  - rewrite same_key_sym in H. eapply same_key_trans; eassumption.
  - destruct (same_key r2 y) eqn:E2; [|reflexivity].
    now rewrite (same_key_trans _ _ _ H E2) in E.
Qed.

Lemma insert_or_update_absorbed r r2 : forall t,
  same_key r r2 = true ->
  existsb (same_key r) t = true ->
  insert_or_update (insert_or_update t r) r2 = insert_or_update t r2.
Proof.
  intros t H. induction t as [|y t IH]; cbn [existsb insert_or_update];
    [discriminate|].
  intros Hx. pose proof (same_key_congruence r r2 y H) as Hy.
  destruct (same_key r y) eqn:E; cbn [insert_or_update].
  - rewrite same_key_do_update, Hy. reflexivity.
  - rewrite Hy. cbn [orb] in Hx. now rewrite IH.
Qed.

Lemma insert_or_update_commute r r1 : forall t,
  same_key r r1 = false ->
  existsb (same_key r) t = true ->
  insert_or_update (insert_or_update t r) r1
  = insert_or_update (insert_or_update t r1) r.
Proof.
  intros t H. induction t as [|y t IH]; cbn [existsb insert_or_update];
    [discriminate|].
  intros Hx.
  destruct (same_key r y) eqn:E, (same_key r1 y) eqn:E1;
    cbn [insert_or_update]; rewrite ?same_key_do_update, ?E, ?E1.
  - rewrite same_key_sym in E1.
    now rewrite (same_key_trans _ _ _ E E1) in H.
  - reflexivity.
  - reflexivity.
  - cbn [orb] in Hx. now rewrite IH.
Qed.

Lemma upsert_rows_keeps row rs : forall t,
  existsb (same_key row) t = true ->
  existsb (same_key row) (upsert_rows t rs) = true.
Proof.
  unfold upsert_rows. induction rs as [|r rs IH]; intros t H; cbn [fold_left].
  - exact H.
  - apply IH. now apply insert_or_update_keeps.
Qed.

Lemma upsert_rows_absorbs r rs : forall t,
  existsb (same_key r) rs = true ->
  existsb (same_key r) t = true ->
  upsert_rows (insert_or_update t r) rs = upsert_rows t rs.
Proof.
  unfold upsert_rows.
  induction rs as [|r1 rs IH]; intros t Hrs Ht; cbn [existsb fold_left] in *;
    [discriminate|].
  destruct (same_key r r1) eqn:E.
  - now rewrite insert_or_update_absorbed.
  - cbn [orb] in Hrs. rewrite insert_or_update_commute by assumption.
    apply IH; [exact Hrs|]. now apply insert_or_update_keeps.
Qed.

Lemma insert_or_update_fixed r : forall t x,
  lookup t r = Some x -> do_update x r = x -> insert_or_update t r = t.
Proof.
  unfold lookup. induction t as [|y t IH]; cbn [find insert_or_update];
    [discriminate|].
  intros x. destruct (same_key r y).
  - intros H Hu. injection H as ->. now rewrite Hu.
  - intros H Hu. now rewrite (IH x).
Qed.

Lemma agree_off_key_do_update x r : agree_off_key x r -> do_update x r = x.
Proof.
  destruct x. unfold agree_off_key, do_update. cbn.
  intros (H1 & H2 & H3 & H4 & H5 & H6 & H7 & H8 & H9 & H10 & H11 & H12 & H13
          & H14 & H15 & H16).
  now rewrite <- H1, <- H2, <- H3, <- H4, <- H5, <- H6, <- H7, <- H8, <- H9,
    <- H10, <- H11, <- H12, <- H13, <- H14, <- H15, <- H16.
Qed.

Lemma upsert_rows_lookup_frame probe rs : forall t,
  existsb (same_key probe) rs = false ->
  lookup (upsert_rows t rs) probe = lookup t probe.
Proof.
  unfold upsert_rows.
  induction rs as [|r rs IH]; intros t H; cbn [existsb fold_left] in *;
    [reflexivity|].
  apply orb_false_iff in H. destruct H as [Hr Hrs].
  rewrite IH by assumption.
  apply insert_or_update_lookup_frame. now rewrite same_key_sym.
Qed.

Lemma upsert_rows_twice rs : forall t,
  Forall (fun r => same_key r r = true) rs ->
  upsert_rows (upsert_rows t rs) rs = upsert_rows t rs.
Proof.
  induction rs as [|r rs IH]; intros t Hk; [reflexivity|].
  inversion Hk as [|? ? Hr Hrs]; subst.
  change (upsert_rows t (r :: rs)) with (upsert_rows (insert_or_update t r) rs).
  set (d := upsert_rows (insert_or_update t r) rs).
  change (upsert_rows d (r :: rs)) with (upsert_rows (insert_or_update d r) rs).
  assert (Hd : existsb (same_key r) d = true).
  { apply upsert_rows_keeps. now apply insert_or_update_has. }
  assert (E : upsert_rows (insert_or_update d r) rs = upsert_rows d rs).
  { destruct (existsb (same_key r) rs) eqn:Ers.
    - now apply upsert_rows_absorbs.
    - destruct (insert_or_update_lookup_self r t Hr) as (x & Hl & Hagree).
      rewrite (insert_or_update_fixed r d x); [reflexivity| |].
      + unfold d. now rewrite upsert_rows_lookup_frame.
      + now apply agree_off_key_do_update. }
  rewrite E. unfold d. now apply IH.
Qed.

Variable cv : conversions.

Lemma run_all_upsert_rows batch : forall t t',
  run_all cv Upsert t batch = inr t' ->
  exists rs,
    t' = upsert_rows t rs
    /\ Forall (fun r => same_key r r = true) rs
    /\ forall d, run_all cv Upsert d batch = inr (upsert_rows d rs).
Proof.
  induction batch as [|params rest IH]; intros t t'; cbn [run_all ret].
  - intros H. injection H as <-. exists []. repeat split. constructor.
  - destruct (stored cv params) as [e|r] eqn:Es; cbn [bind run_statement];
      [discriminate|].
    destruct (constraints_ok r) eqn:Ec; cbn [bind ret]; [|discriminate].
    intros H. destruct (IH _ _ H) as (rs & -> & Hk & Hall).
    exists (r :: rs). split; [reflexivity|]. split.
    + constructor; [|exact Hk]. eapply stored_same_key_refl; eassumption.
    + intros d. apply Hall.
Qed.

End UpsertTwice.

(** Insert-or-update is idempotent as well: once a batch has been
    committed, applying the same batch again, whatever the engine refuses
    then, leaves the table exactly as the first application left it. *)
Theorem upsert_idempotent cv flt db a db1 rep :
  apply_batch cv Upsert flt db a = (db1, inr rep) ->
  forall flt', fst (apply_batch cv Upsert flt' db1 a) = db1.
Proof.
  intros H flt'. apply apply_batch_run_all in H.
  destruct (run_all_upsert_rows cv _ _ _ H) as (rs & -> & Hk & Hall).
  destruct (apply_batch_cases cv Upsert flt' (upsert_rows db rs) a)
    as [[_ ->]|[[e ->]|(t & u & Hx & ->)]]; cbn [fst]; try reflexivity.
  apply executemany_run_all in Hx. rewrite Hall in Hx. injection Hx as <-.
  now apply upsert_rows_twice.
Qed.

Lemma upsert_idempotent_witness :
  let a := mkAcc [canonical scenario "T1";
                  canonical (set_field scenario 0 (PStr "DEF456")) "T1";
                  canonical scenario "T2"] 0 in
  exists db1,
    apply_batch sample_conversions Upsert no_faults sample_db a
    = (db1, inr (Written 3 0))
    /\ map fetch_time db1 = [SText "T2"; SText "T1"]
    /\ fst (apply_batch sample_conversions Upsert no_faults db1 a) = db1.
Proof.
  cbv zeta.
  set (a := mkAcc [canonical scenario "T1";
                   canonical (set_field scenario 0 (PStr "DEF456")) "T1";
                   canonical scenario "T2"] 0).
  destruct (apply_batch sample_conversions Upsert no_faults sample_db a)
    as [db1 [e|rep]] eqn:Ea; [vm_compute in Ea; discriminate|].
  pose proof (upsert_idempotent sample_conversions no_faults sample_db a db1
                rep Ea no_faults) as H.
  exists db1. vm_compute in Ea. injection Ea as <- <-.
  split; [reflexivity|]. split; [reflexivity|exact H].
Defined.

(** * Facts about the setup of the database *)

(** [setup_database] is idempotent, as its docstring says: a run in which
    nothing fails leaves the table and the two indexes in place and reports
    success, and any later run, failing or not, leaves that database as it
    is. *)
Theorem setup_database_idempotent d :
  let d1 := fst (Schema.setup_database no_faults d) in
  Schema.setup_database no_faults d = (d1, Schema.SetupDone)
  /\ Schema.ready d1
  /\ forall flt, fst (Schema.setup_database flt d1) = d1.
Proof.
  destruct d as [[rows|] [|] [|]]; cbv zeta; (split; [reflexivity|]);
    (split; [repeat split; discriminate|]);
    intros [sf cf]; unfold Schema.setup_database, Schema.execute_ddl;
    cbn [stmt_fails commit_fails];
    destruct (sf 0%nat); cbn; try reflexivity;
    destruct (sf 1%nat); cbn; try reflexivity;
    destruct (sf 2%nat); cbn; try reflexivity;
    destruct cf; reflexivity.
Qed.

(** [setup_database] never touches the rows: whatever fails, a table that
    exists keeps its rows and an index that exists stays; all the call can
    do is add what is missing. *)
Theorem setup_database_keeps_rows flt d :
  let d1 := fst (Schema.setup_database flt d) in
  (forall rows, Schema.opensky_data d = Some rows ->
                Schema.opensky_data d1 = Some rows)
  /\ (Schema.opensky_data d = None ->
      Schema.opensky_data d1 = None \/ Schema.opensky_data d1 = Some [])
  /\ (Schema.idx_origin_country d = true -> Schema.idx_origin_country d1 = true)
  /\ (Schema.idx_last_contact d = true -> Schema.idx_last_contact d1 = true).
Proof.
  destruct flt as [sf cf], d as [[rows|] ic it]; cbv zeta;
    unfold Schema.setup_database, Schema.execute_ddl;
    cbn [stmt_fails commit_fails];
    destruct (sf 0%nat); cbn;
    try (repeat split; (intros; assumption) || (intros; discriminate)
         || (intros; auto));
    destruct ic, (sf 1%nat); cbn;
    try (repeat split; (intros; assumption) || (intros; discriminate)
         || (intros; auto));
    destruct it, (sf 2%nat); cbn;
    try (repeat split; (intros; assumption) || (intros; discriminate)
         || (intros; auto));
    destruct cf; cbn;
    repeat split; (intros; assumption) || (intros; discriminate)
                  || (intros; auto).
Qed.

(** * The normalizer and the constraints of the table *)

Lemma bind_parameters_checked r cells :
  bind_parameters r = inr cells ->
  bind_param (last_contact r) = inr (last_contact cells)
  /\ bind_param (longitude r) = inr (longitude cells)
  /\ bind_param (latitude r) = inr (latitude cells)
  /\ bind_param (on_ground r) = inr (on_ground cells)
  /\ bind_param (true_track r) = inr (true_track cells)
  /\ bind_param (spi r) = inr (spi cells)
  /\ bind_param (fetch_time r) = inr (fetch_time cells).
Proof.
  unfold bind_parameters.
  repeat match goal with
         | |- context [bind (bind_param ?v) _] =>
             destruct (bind_param v) eqn:?; cbn [bind]; [discriminate|]
         end.
  intros H. injection H as <-. cbn. repeat split; reflexivity.
Qed.

Lemma range_column_ok cv lo hi v c :
  rounds_within cv ->
  - 2 ^ 53 <= lo -> hi <= 2 ^ 53 ->
  v = PNone \/ in_interval lo hi v ->
  bind_param v = inr c ->
  check_between (apply_affinity cv REAL c) lo hi = true.
Proof.
  intros Hcv Hlo Hhi [->|Hv].
  - intros H. injection H as <-. reflexivity.
  - destruct v as [|b|z|[|n|q]|s|l|d]; cbn [in_interval] in Hv;
      try contradiction; cbn [bind_param ret].
    + intros H. injection H as <-. cbn [apply_affinity]. now apply Hcv.
    + destruct (int64 z); [|discriminate].
      intros H. injection H as <-. cbn [apply_affinity]. now apply Hcv.
    + intros H. injection H as <-. cbn.
      destruct Hv as [H1 H2]. apply Qle_bool_iff in H1, H2.
      now rewrite H1, H2.
Qed.

Lemma flag_column_ok cv v c :
  in_0_1 v = true ->
  bind_param v = inr c ->
  not_null (apply_affinity cv NUMERIC c) = true
  /\ check_in (apply_affinity cv NUMERIC c) [0; 1] = true.
Proof.
  unfold in_0_1. intros Hv.
  destruct v as [|b|z|f|s|l|d]; cbn [eq_int orb] in Hv; try discriminate;
    cbn [bind_param ret].
  - intros H. injection H as <-. now destruct b.
  - apply orb_true_iff in Hv.
    destruct Hv as [Hv|Hv]; apply Z.eqb_eq in Hv; subst z;
      intros H; injection H as <-; now split.
  - assert (Hq : exists q z, f = FFin q /\ (q == inject_Z z)%Q
                             /\ (z = 0 \/ z = 1)).
    { apply orb_true_iff in Hv. destruct f as [|n|q]; cbn in Hv;
        try (destruct Hv; discriminate).
      destruct Hv as [Hv|Hv]; apply Qeq_bool_iff in Hv;
        [exists q, 0|exists q, 1]; auto. }
    destruct Hq as (q & z & -> & Hq & Hz).
    intros H. injection H as <-.
    cbn [real apply_affinity integer_if_exact].
    apply Qred_complete in Hq. rewrite Hq.
    destruct Hz as [-> | ->]; now split.
Qed.

(** The checks of the normalizer cover the constraints of the table on
    last_contact, longitude, latitude, on_ground, true_track, spi and
    fetch_time: the row of a record it accepted can only break the NOT NULL
    of icao24 and origin_country and the CHECK of position_source, which it
    does not look at (a NaN passes as identity and is stored as NULL). *)
Theorem normalizer_covers_table_checks cv now r row :
  rounds_within cv ->
  sink_ready now r ->
  stored cv r = inr row ->
  constraints_ok row
  = not_null (icao24 row) && not_null (origin_country row)
    && check_in (position_source row) [0; 1; 2].
Proof.
  intros Hcv [Hid Hlc Hlon Hlat Htr Hog Hspi _ _ Hft] Hs.
  destruct (stored_cells _ _ _ Hs) as (cells & Hb & ->).
  destruct (bind_parameters_checked _ _ Hb)
    as (B4 & B5 & B6 & B8 & B10 & B15 & B17).
  unfold constraints_ok.
  cbn [tuple_map2 column_affinity icao24 origin_country last_contact longitude
       latitude on_ground true_track spi position_source fetch_time].
  rewrite (range_column_ok cv (-180) 180 _ _ Hcv) by (try eassumption; lia).
  rewrite (range_column_ok cv (-90) 90 _ _ Hcv) by (try eassumption; lia).
  rewrite (range_column_ok cv 0 360 _ _ Hcv) by (try eassumption; lia).
  destruct (flag_column_ok cv _ _ Hog B8) as [-> ->].
  destruct (flag_column_ok cv _ _ Hspi B15) as [-> ->].
  assert (H4 : not_null (apply_affinity cv INTEGER (last_contact cells)) = true).
  { destruct (last_contact r); try discriminate; cbn [bind_param ret] in B4.
    - now injection B4 as <-.
    - destruct (int64 z); [|discriminate]. now injection B4 as <-. }
  assert (H17 : not_null (apply_affinity cv TEXT (fetch_time cells)) = true).
  { rewrite Hft in B17. now injection B17 as <-. }
  rewrite H4, H17. now rewrite !andb_true_r.
Qed.

Lemma sample_conversions_round : rounds_within sample_conversions.
Proof.
  intros z lo hi _ _ [H1 H2]. cbn.
  apply andb_true_iff. split; apply Qle_bool_iff;
    rewrite <- Zle_Qle; assumption.
Qed.

Lemma normalizer_covers_table_checks_witness :
  let r := canonical (set_field (set_field scenario 2 PNone) 16 (PInt 1)) "T" in
  exists row,
    stored sample_conversions r = inr row
    /\ sink_ready "T" r
    /\ constraints_ok row = false
    /\ not_null (origin_country row) = false.
Proof.
  cbv zeta.
  set (r := canonical (set_field (set_field scenario 2 PNone) 16 (PInt 1)) "T").
  destruct (stored sample_conversions r) as [e|row] eqn:Es;
    [vm_compute in Es; discriminate|].
  assert (Hr : sink_ready "T" r).
  { apply (normalize_accepted_ready
             (PList (set_field (set_field scenario 2 PNone) 16 (PInt 1)))).
    reflexivity. }
  exists row. split; [reflexivity|]. split; [exact Hr|].
  rewrite (normalizer_covers_table_checks sample_conversions "T" r row
             sample_conversions_round Hr Es).
  vm_compute in Es. injection Es as <-. split; reflexivity.
Defined.

(** * Further facts about the cycles *)

Lemma apply_no_faults_table cv p db a :
  fst (apply_batch cv p no_faults db a)
  = match run_all cv p db (records_to_insert a) with
    | inr t => t
    | inl _ => db
    end.
Proof.
  destruct (run_all cv p db (records_to_insert a)) as [e|t] eqn:E.
  - destruct (apply_batch_cases cv p no_faults db a)
      as [[_ ->]|[[e' ->]|(t & u & Hx & _)]]; try reflexivity.
    apply executemany_run_all in Hx. congruence.
  - destruct (records_to_insert a) as [|r0 rest] eqn:Er.
    + cbn in E. injection E as <-.
      unfold apply_batch, store_batch. now rewrite Er.
    + rewrite (apply_batch_of_run_all cv p db a t); [reflexivity| |].
      * now rewrite Er.
      * rewrite Er. discriminate.
Qed.

(** Insert-or-ignore drops the rows that break a constraint one by one, not
    the batch: a record whose row breaks a NOT NULL or a CHECK constraint
    can be taken out of the batch without changing the table the call
    leaves. *)
Theorem ignore_drops_bad_rows_only cv db pre r post row s :
  stored cv r = inr row ->
  constraints_ok row = false ->
  fst (apply_batch cv InsertOrIgnore no_faults db (mkAcc (pre ++ r :: post) s))
  = fst (apply_batch cv InsertOrIgnore no_faults db (mkAcc (pre ++ post) s)).
Proof.
  intros Hs Hc. rewrite !apply_no_faults_table. cbn [records_to_insert].
  rewrite !run_all_app.
  destruct (run_all cv InsertOrIgnore db pre) as [e|t1]; cbn [bind];
    [reflexivity|].
  cbn [run_all]. rewrite Hs. cbn [bind run_statement ret].
  unfold insert_or_ignore at 1. rewrite Hc. reflexivity.
Qed.

Lemma ignore_drops_bad_rows_only_witness :
  let good := canonical (set_field scenario 0 (PStr "DEF456")) "T" in
  let bad := with_position_source (canonical scenario "T9") (PInt 7) in
  map fetch_time
    (fst (apply_batch sample_conversions InsertOrIgnore no_faults sample_db
            (mkAcc ([bad] ++ bad :: [good]) 0)))
  = [SText "T0"; SText "T"]
  /\ fst (apply_batch sample_conversions InsertOrIgnore no_faults sample_db
            (mkAcc ([bad] ++ bad :: [good]) 0))
     = fst (apply_batch sample_conversions InsertOrIgnore no_faults sample_db
              (mkAcc ([bad] ++ [good]) 0)).
Proof.
  cbv zeta. split; [vm_compute; reflexivity|].
  destruct (stored sample_conversions
              (with_position_source (canonical scenario "T9") (PInt 7)))
    as [e|row] eqn:Es; [vm_compute in Es; discriminate|].
  apply (ignore_drops_bad_rows_only sample_conversions sample_db
           [with_position_source (canonical scenario "T9") (PInt 7)]
           (with_position_source (canonical scenario "T9") (PInt 7))
           [canonical (set_field scenario 0 (PStr "DEF456")) "T"] row 0%nat Es).
  vm_compute in Es. injection Es as <-. reflexivity.
Defined.

Lemma filter_not_accepted now states :
  Forall (fun fields => not_accepted (normalize (PList fields) now)) states ->
  filter (is_accepted now) states = [].
Proof.
  induction 1 as [|fields states [H|H] _ IH]; [reflexivity| |];
    cbn [filter]; unfold is_accepted at 1; now rewrite H.
Qed.

(** When the batch is not empty and none of its observations is accepted,
    either cycle ends with "No valid records": nothing is executed, the
    skipped count is not logged and the database is as it was. *)
Theorem cycle_without_valid_record cv d states now db :
  get_states (PDict d) = inr (PList (map PList states)) ->
  states <> [] ->
  Forall (fun fields => not_accepted (normalize (PList fields) now)) states ->
  (forall flt,
     fetch_and_append_data cv (HttpOk (PDict d)) flt now db
     = (db, inr NoValidRecords))
  /\ (forall net flt,
        fst (fetch_data_with_retries net) = PDict d ->
        fetch_and_upsert_data cv net flt now db = (db, inr NoValidRecords)).
Proof.
  intros Hg Hne Hf. apply filter_not_accepted in Hf.
  assert (Ht : truthy (PList (map PList states)) = true).
  { destruct states; [contradiction|reflexivity]. }
  assert (Hd : truthy (PDict d) = true).
  { destruct d; [|reflexivity]. cbn in Hg. injection Hg as Hg.
    destruct states; [contradiction|discriminate]. }
  assert (Hp : forall p flt,
             process cv p flt now (connect db) (PDict d)
             = (connect db, inr NoValidRecords)).
  { intros p flt. unfold process.
    rewrite Hg, Ht. unfold normalize_all.
    cbn [py_iter bind ret]. rewrite loop_filter.
    unfold store_batch. cbn [records_to_insert app]. now rewrite Hf. }
  split.
  - intros flt. unfold fetch_and_append_data. now rewrite Hp.
  - intros net flt Hfd. unfold fetch_and_upsert_data.
    destruct (fetch_data_with_retries net) as [data w]. cbn [fst] in Hfd.
    subst data. now rewrite Hd, Hp.
Qed.

Lemma cycle_without_valid_record_witness :
  let late := set_field scenario 5 (PFloat (FFin 200)) in
  let d := [("time", PInt 1005); ("states", PList [PList late; PList [PStr "abc123"]])] in
  fetch_and_append_data sample_conversions (HttpOk (PDict d)) no_faults "T"
    sample_db
  = (sample_db, inr NoValidRecords)
  /\ fetch_and_upsert_data sample_conversions (fun _ => HttpOk (PDict d))
       no_faults "T" sample_db
     = (sample_db, inr NoValidRecords).
Proof.
  cbv zeta.
  assert (H : Forall (fun fields => not_accepted (normalize (PList fields) "T"))
                [set_field scenario 5 (PFloat (FFin 200)); [PStr "abc123"]]).
  { apply Forall_cons; [left; vm_compute; reflexivity|].
    apply Forall_cons; [right; vm_compute; reflexivity|apply Forall_nil]. }
  destruct (cycle_without_valid_record sample_conversions
              [("time", PInt 1005);
               ("states", PList [PList (set_field scenario 5 (PFloat (FFin 200)));
                                 PList [PStr "abc123"]])]
              [set_field scenario 5 (PFloat (FFin 200)); [PStr "abc123"]]
              "T" sample_db eq_refl ltac:(discriminate) H)
    as (Ha & Hu).
  split; [apply Ha|]. apply Hu. reflexivity.
Defined.

(** * The jobs during an outage *)

Lemma Qltb_false a b : Qltb a b = false -> (b <= a)%Q.
Proof.
  unfold Qltb. intros H. apply negb_false_iff in H.
  now apply Qle_bool_iff.
Qed.

Lemma upsert_cycle_outage cv net flt now db :
  (forall k, net k = RequestException) ->
  fetch_and_upsert_data cv net flt now db = (db, inr FetchSkipped).
Proof.
  intros H. unfold fetch_and_upsert_data, fetch_data_with_retries.
  rewrite retry_from_exhausted by (intros k _; apply H). reflexivity.
Qed.

Lemma append_cycle_outage cv flt now db :
  fetch_and_append_data cv RequestException flt now db = (db, inr ApiError).
Proof. reflexivity. Qed.

(** While the endpoint fails every request, neither job stops and neither
    touches the database: the loop ends only when its time is over or when
    no cycle is left to run. *)
Theorem outage_does_not_stop_the_jobs cv end_time envs : forall clock db,
  Forall outage envs ->
  let r6 := loop_6h cv end_time clock db envs in
  let r24 := loop_24h cv end_time clock db envs in
  fst r6 = db /\ fst r24 = db
  /\ (List.length (snd r6) = List.length envs
      \/ (end_time <= clock + elapsed (snd r6))%Q)
  /\ (List.length (snd r24) = List.length envs
      \/ (end_time <= clock + elapsed (snd r24))%Q).
Proof.
  induction envs as [|e rest IH]; intros clock db H; cbv zeta.
  - cbn. auto.
  - inversion H as [|? ? He Hrest]; subst.
    cbn [loop_6h loop_24h].
    destruct (Qltb clock end_time) eqn:Hc.
    + rewrite (He 1%nat). rewrite (upsert_cycle_outage cv _ _ _ _ He).
      rewrite append_cycle_outage.
      set (s6 := max0 (inject_Z FETCH_INTERVAL_SECONDS - env_cost e)%Q).
      set (s24 := inject_Z FETCH_INTERVAL_SECONDS).
      destruct (IH (clock + env_cost e + s6)%Q db Hrest) as (A6 & _ & L6 & _).
      destruct (IH (clock + env_cost e + s24)%Q db Hrest) as (_ & A24 & _ & L24).
      destruct (loop_6h cv end_time (clock + env_cost e + s6)%Q db rest)
        as [d6 t6].
      destruct (loop_24h cv end_time (clock + env_cost e + s24)%Q db rest)
        as [d24 t24].
      cbn [fst snd] in *. repeat split; try assumption.
      * destruct L6 as [L|L]; [left; cbn; now rewrite L|right].
        cbn [elapsed fold_right fst snd]. fold (elapsed t6). lra.
      * destruct L24 as [L|L]; [left; cbn; now rewrite L|right].
        cbn [elapsed fold_right fst snd]. fold (elapsed t24). lra.
    + apply Qltb_false in Hc. cbn. repeat split; try (right; lra).
Qed.

Lemma outage_does_not_stop_the_jobs_witness :
  let e := mkEnv (fun _ => RequestException) no_faults "T" 30%Q in
  loop_6h sample_conversions 1500%Q 0%Q sample_db [e; e; e; e]
  = (sample_db, [(30, 570); (30, 570); (30, 570)]%Q)
  /\ fst (loop_24h sample_conversions 1500%Q 0%Q sample_db [e; e; e; e])
     = sample_db.
Proof.
  cbv zeta. split; [vm_compute; reflexivity|].
  apply (outage_does_not_stop_the_jobs sample_conversions 1500%Q
           (let e := mkEnv (fun _ => RequestException) no_faults "T" 30%Q in
            [e; e; e; e]) 0%Q sample_db).
  repeat constructor.
Defined.
